(** * linear-kv: the serialized store and its history checker

    A shallow embedding of [main.go]: the in-memory key/value store with
    deduplicated writes ([handlePut], [handleGet], [recordHistory]), the
    goroutine interleavings around its single mutex, and the history
    checker ([CheckLinearizability] and its three passes). *)

From Stdlib Require Import ZArith.
From stdpp Require Import gmap strings list sorting.

Local Open Scope string_scope.
Local Open Scope list_scope.

(** ** Data model *)

(** [time.Time]: a reading of Go's monotonic clock, in nanoseconds.
    [Before], [After] and [Sub] compare and subtract such readings. *)
Definition Before (t u : Z) : bool := (t <? u)%Z.
Definition After (t u : Z) : bool := (u <? t)%Z.
Definition Sub (t u : Z) : Z := (t - u)%Z.

(** [type HistoryEntry struct]; the field [End] is spelled [End_]. *)
Record HistoryEntry := mkHistoryEntry {
  RequestID : string;
  Op : string;
  Key : string;
  Value : string;
  Result : string;
  Start : Z;
  End_ : Z;
  Duration : Z
}.

(** [type Store struct], without the mutex, which lives in the
    interleaving model below. *)
Record Store := mkStore {
  kv : gmap string string;
  seenWrite : gset string;
  history : list HistoryEntry
}.

Definition NewStore : Store :=
  {| kv := ∅; seenWrite := ∅; history := [] |}.

Definition recordHistory (h : HistoryEntry) (s : Store) : Store :=
  {| kv := kv s; seenWrite := seenWrite s; history := history s ++ [h] |}.

Record putRequest := mkPutRequest {
  req_RequestID : string;
  req_Key : string;
  req_Value : string
}.

Record getResponse := mkGetResponse {
  resp_Key : string;
  resp_Value : string;
  resp_Found : bool;
  resp_Result : string
}.

(** What a handler writes to its [http.ResponseWriter]. *)
Inductive Response :=
| HttpError (msg : string) (code : Z)
| PutReply (result : string)
| GetReply (r : getResponse).

Definition StatusBadRequest : Z := 400.

(** The spec's [InvalidArgument]: the 400 answers for a missing
    [requestId] or [key]; a body that does not parse is the other 400. *)
Definition InvalidArgument (r : Response) : Prop :=
  r = HttpError "requestId and key required" StatusBadRequest ∨
  r = HttpError "key required" StatusBadRequest.

Definition MalformedInput (r : Response) : Prop :=
  r = HttpError "invalid JSON" StatusBadRequest.

(** [map[bool]string{true: "ok", false: "not_found"}[ok]] *)
Definition getResult (ok : bool) : string :=
  if ok then "ok" else "not_found".

(** [value, ok := s.kv[key]]: a missing key reads as the zero string. *)
Definition kvLookup (m : gmap string string) (key : string) : string * bool :=
  match m !! key with
  | Some v => (v, true)
  | None => ("", false)
  end.

(** The body of [handlePut]'s critical section up to the clock reading. *)
Definition applyPut (req : putRequest) (s : Store) : string * Store :=
  if bool_decide (req_RequestID req ∈ seenWrite s) then ("duplicate", s)
  else ("ok", {| kv := <[req_Key req := req_Value req]> (kv s);
                 seenWrite := {[req_RequestID req]} ∪ seenWrite s;
                 history := history s |}).

Definition putEntry (req : putRequest) (result : string) (start end_ : Z)
  : HistoryEntry :=
  {| RequestID := req_RequestID req; Op := "PUT"; Key := req_Key req;
     Value := req_Value req; Result := result;
     Start := start; End_ := end_; Duration := Sub end_ start |}.

Definition getEntry (key reqID value : string) (ok : bool) (start end_ : Z)
  : HistoryEntry :=
  {| RequestID := reqID; Op := "GET"; Key := key;
     Value := value; Result := getResult ok;
     Start := start; End_ := end_; Duration := Sub end_ start |}.

Definition putInvalid (req : putRequest) : bool :=
  String.eqb (req_RequestID req) "" || String.eqb (req_Key req) "".

(** ** The handlers, run alone

    [time.Now()] reads a monotonic clock: the reading is the previous
    one plus the time [d] that went by, which is never negative.  The
    body is [None] when the JSON decoder fails. *)
Definition time_Now (d : N) (clock : Z) : Z := (clock + Z.of_N d)%Z.

Definition handlePut (body : option putRequest) (d1 d2 : N)
  (clock : Z) (s : Store) : Response * Z * Store :=
  let start := time_Now d1 clock in
  match body with
  | None => (HttpError "invalid JSON" StatusBadRequest, start, s)
  | Some req =>
    if putInvalid req
    then (HttpError "requestId and key required" StatusBadRequest, start, s)
    else
      let '(result, s1) := applyPut req s in
      let end_ := time_Now d2 start in
      (PutReply result, end_, recordHistory (putEntry req result start end_) s1)
  end.

Definition handleGet (key reqID : string) (d1 d2 : N)
  (clock : Z) (s : Store) : Response * Z * Store :=
  let start := time_Now d1 clock in
  if String.eqb key ""
  then (HttpError "key required" StatusBadRequest, start, s)
  else
    let '(value, ok) := kvLookup (kv s) key in
    let end_ := time_Now d2 start in
    (GetReply {| resp_Key := key; resp_Value := value; resp_Found := ok;
                 resp_Result := getResult ok |},
     end_, recordHistory (getEntry key reqID value ok start end_) s).

(** A request to the [/kv] endpoint, with the two clock advances its
    handler observes. *)
Inductive Request :=
| DoPut (body : option putRequest) (d1 d2 : N)
| DoGet (key reqID : string) (d1 d2 : N).

Definition serve (r : Request) (clock : Z) (s : Store) : Response * Z * Store :=
  match r with
  | DoPut body d1 d2 => handlePut body d1 d2 clock s
  | DoGet key reqID d1 d2 => handleGet key reqID d1 d2 clock s
  end.

Fixpoint serveAll (rs : list Request) (clock : Z) (s : Store) : Z * Store :=
  match rs with
  | [] => (clock, s)
  | r :: rs' => let '(_, c1, s1) := serve r clock s in serveAll rs' c1 s1
  end.

(** ** Goroutines around the mutex

    Each request runs in its own goroutine.  A goroutine is at one of the
    program points below; [mu] is the store's [sync.Mutex].  The points
    from [PutInCS] to [PutLogged] and from [GetInCS] to [GetLogged] are
    the ones between [s.mu.Lock()] and [s.mu.Unlock()]. *)
Inductive pc :=
| PutEntry (body : option putRequest)
| PutWantLock (req : putRequest) (start : Z)
| PutInCS (req : putRequest) (start : Z)
| PutApplied (req : putRequest) (start : Z) (result : string)
| PutStamped (req : putRequest) (start : Z) (result : string) (end_ : Z)
| PutLogged (result : string)
| GetEntry (key reqID : string)
| GetWantLock (key reqID : string) (start : Z)
| GetInCS (key reqID : string) (start : Z)
| GetLooked (key reqID : string) (start : Z) (value : string) (ok : bool)
| GetStamped (key reqID : string) (start : Z) (value : string) (ok : bool)
    (end_ : Z)
| GetLogged (key value : string) (ok : bool)
| Done (resp : Response).

Record System := mkSystem {
  store : Store;
  clock : Z;
  mu : bool;
  threads : list pc
}.

Definition initial (c0 : Z) : System :=
  {| store := NewStore; clock := c0; mu := false; threads := [] |}.

Definition inCS (p : pc) : bool :=
  match p with
  | PutInCS _ _ | PutApplied _ _ _ | PutStamped _ _ _ _ | PutLogged _
  | GetInCS _ _ _ | GetLooked _ _ _ _ _ | GetStamped _ _ _ _ _ _
  | GetLogged _ _ _ => true
  | _ => false
  end.

(** One atomic step of a goroutine at [p]; [d] is the time gone by when
    the step reads the clock.  [None]: the goroutine cannot move (it
    waits for the mutex, or it has returned). *)
Definition stepThread (d : N) (p : pc) (st : Store) (clk : Z) (m : bool)
  : option (pc * Store * Z * bool) :=
  match p with
  | PutEntry body =>
    let start := time_Now d clk in
    match body with
    | None =>
      Some (Done (HttpError "invalid JSON" StatusBadRequest), st, start, m)
    | Some req =>
      if putInvalid req
      then Some (Done (HttpError "requestId and key required" StatusBadRequest),
                 st, start, m)
      else Some (PutWantLock req start, st, start, m)
    end
  | PutWantLock req start =>
    if m then None else Some (PutInCS req start, st, clk, true)
  | PutInCS req start =>
    let '(result, s1) := applyPut req st in
    Some (PutApplied req start result, s1, clk, m)
  | PutApplied req start result =>
    let end_ := time_Now d clk in
    Some (PutStamped req start result end_, st, end_, m)
  | PutStamped req start result end_ =>
    Some (PutLogged result,
          recordHistory (putEntry req result start end_) st, clk, m)
  | PutLogged result => Some (Done (PutReply result), st, clk, false)
  | GetEntry key reqID =>
    let start := time_Now d clk in
    if String.eqb key ""
    then Some (Done (HttpError "key required" StatusBadRequest), st, start, m)
    else Some (GetWantLock key reqID start, st, start, m)
  | GetWantLock key reqID start =>
    if m then None else Some (GetInCS key reqID start, st, clk, true)
  | GetInCS key reqID start =>
    let '(value, ok) := kvLookup (kv st) key in
    Some (GetLooked key reqID start value ok, st, clk, m)
  | GetLooked key reqID start value ok =>
    let end_ := time_Now d clk in
    Some (GetStamped key reqID start value ok end_, st, end_, m)
  | GetStamped key reqID start value ok end_ =>
    Some (GetLogged key value ok,
          recordHistory (getEntry key reqID value ok start end_) st, clk, m)
  | GetLogged key value ok =>
    Some (Done (GetReply {| resp_Key := key; resp_Value := value;
                            resp_Found := ok; resp_Result := getResult ok |}),
          st, clk, false)
  | Done _ => None
  end.

(** What the scheduler and the network do: a request arrives and gets a
    goroutine, or goroutine [i] takes its next step. *)
Inductive Event :=
| ArrivePut (body : option putRequest)
| ArriveGet (key reqID : string)
| Run (i : nat) (d : N).

Definition sysStep (e : Event) (σ : System) : option System :=
  match e with
  | ArrivePut body =>
    Some {| store := store σ; clock := clock σ; mu := mu σ;
            threads := threads σ ++ [PutEntry body] |}
  | ArriveGet key reqID =>
    Some {| store := store σ; clock := clock σ; mu := mu σ;
            threads := threads σ ++ [GetEntry key reqID] |}
  | Run i d =>
    match threads σ !! i with
    | None => None
    | Some p =>
      match stepThread d p (store σ) (clock σ) (mu σ) with
      | None => None
      | Some (p', st', clk', m') =>
        Some {| store := st'; clock := clk'; mu := m';
                threads := <[i := p']> (threads σ) |}
      end
    end
  end.

Fixpoint runEvents (es : list Event) (σ : System) : option System :=
  match es with
  | [] => Some σ
  | e :: es' =>
    match sysStep e σ with
    | None => None
    | Some σ' => runEvents es' σ'
    end
  end.

Definition reachable (σ : System) : Prop :=
  ∃ c0 es, runEvents es (initial c0) = Some σ.

(** *** The sequential register the log is compared with

    Following the spec's model: along a linearization a [Get] with
    outcome Ok returns the value of the closest preceding Ok [Put] to
    its key, a [Get] with outcome NotFound has no such [Put] before it,
    and a [Put] is Ok the first time its request identifier is seen and
    Duplicate afterwards.  [registerStep] replays one record on the
    register and is [None] when the record does not fit. *)
Definition registerStep (h : HistoryEntry)
  (r : gmap string string * gset string)
  : option (gmap string string * gset string) :=
  if String.eqb (Op h) "PUT" then
    if bool_decide (RequestID h ∈ r.2)
    then (if String.eqb (Result h) "duplicate" then Some r else None)
    else (if String.eqb (Result h) "ok"
          then Some (<[Key h := Value h]> r.1, {[RequestID h]} ∪ r.2)
          else None)
  else if String.eqb (Op h) "GET" then
    match r.1 !! Key h with
    | Some v =>
      if String.eqb (Result h) "ok" && String.eqb (Value h) v
      then Some r else None
    | None =>
      if String.eqb (Result h) "not_found" then Some r else None
    end
  else None.

Fixpoint registerRun (l : list HistoryEntry)
  (r : gmap string string * gset string)
  : option (gmap string string * gset string) :=
  match l with
  | [] => Some r
  | h :: l' =>
    match registerStep h r with
    | None => None
    | Some r' => registerRun l' r'
    end
  end.

(** The order [l] is a legal sequential execution from the empty
    register, ending in register state [r]. *)
Definition sequentialFrom (l : list HistoryEntry)
  (r : gmap string string * gset string) : Prop :=
  registerRun l (∅, ∅) = Some r.

(** Real-time precedence of records as the spec defines it: [a] ends
    at or before the time [b] starts. *)
Definition precedes (a b : HistoryEntry) : Prop := (End_ a ≤ Start b)%Z.

(** The same read strictly: [a] has returned before [b] is called. *)
Definition strictlyPrecedes (a b : HistoryEntry) : Prop :=
  (End_ a < Start b)%Z.

(** The order [l] never puts a record before one that precedes it
    under [prec]. *)
Definition respectsRealTime (prec : HistoryEntry → HistoryEntry → Prop)
  (l : list HistoryEntry) : Prop :=
  ∀ i j a b, i < j → l !! i = Some a → l !! j = Some b → ¬ prec b a.

(** The record a goroutine inside the critical section has produced but
    not yet appended. *)
Definition pendingOf (p : pc) : list HistoryEntry :=
  match p with
  | PutApplied req start result => [putEntry req result start start]
  | PutStamped req start result end_ => [putEntry req result start end_]
  | GetLooked key reqID start value ok =>
    [getEntry key reqID value ok start start]
  | GetStamped key reqID start value ok end_ =>
    [getEntry key reqID value ok start end_]
  | _ => []
  end.

(** *** Bookkeeping for the interleaving proofs *)

(** How many goroutines are between [Lock] and [Unlock]. *)
Definition csCount (l : list pc) : nat := length (filter (λ p, inCS p = true) l).

Definition pendings (l : list pc) : list HistoryEntry := flat_map pendingOf l.

(** What a goroutine's local timestamps owe to the clock [clk] and to
    the log [hist]: a [start] was read in the past, an [end_] after its
    [start] and after every [End] already in the log. *)
Definition threadTimed (clk : Z) (hist : list HistoryEntry) (p : pc) : Prop :=
  match p with
  | PutWantLock _ start | PutInCS _ start | PutApplied _ start _
  | GetWantLock _ _ start | GetInCS _ _ start | GetLooked _ _ start _ _ =>
    (start ≤ clk)%Z
  | PutStamped _ start _ end_ | GetStamped _ _ start _ _ end_ =>
    (start ≤ end_ ≤ clk)%Z ∧ Forall (λ h, (End_ h ≤ end_)%Z) hist
  | _ => True
  end.

(** The invariant of the interleaving model. *)
Record storeInv (σ : System) : Prop := {
  inv_mutex : csCount (threads σ) = if mu σ then 1 else 0;
  inv_register :
    registerRun (history (store σ) ++ pendings (threads σ)) (∅, ∅)
      = Some (kv (store σ), seenWrite (store σ));
  inv_entries :
    Forall (λ h, (Start h ≤ End_ h ≤ clock σ)%Z) (history (store σ));
  inv_ends :
    StronglySorted (λ a b, (End_ a ≤ End_ b)%Z) (history (store σ));
  inv_threads :
    Forall (threadTimed (clock σ) (history (store σ))) (threads σ)
}.

(** A small run: a [Put] and a [Get] arrive, both read their start
    time, then the [Put] and after it the [Get] go through the
    critical section. *)
Definition demoEvents : list Event :=
  [ArrivePut (Some (mkPutRequest "1" "a" "x")); ArriveGet "a" "c";
   Run 0 1; Run 1 1;
   Run 0 0; Run 0 0; Run 0 2; Run 0 0; Run 0 0;
   Run 1 0; Run 1 0; Run 1 3; Run 1 0; Run 1 0].

Definition demoState : System :=
  default (initial 0) (runEvents demoEvents (initial 0)).

(** ** The history checker *)

(** [type Operation struct]; the fields carry the prefix [op_]. *)
Record Operation := mkOperation {
  op_ID : string;
  op_Op : string;
  op_Key : string;
  op_Value : string;
  op_Start : Z;
  op_End : Z;
  op_Result : string;
  op_ClientID : string
}.

Definition toOperation (entry : HistoryEntry) : Operation :=
  {| op_ID := RequestID entry; op_Op := Op entry; op_Key := Key entry;
     op_Value := Value entry; op_Start := Start entry; op_End := End_ entry;
     op_Result := Result entry; op_ClientID := RequestID entry |}.

(** The comparison every [sort.Slice] call of the checker passes:
    [ops[i].Start.Before(ops[j].Start)]. *)
Definition startBefore (a b : Operation) : bool :=
  Before (op_Start a) (op_Start b).

(** [sort.Slice] of the Go library, by its contract: the result is a
    rearrangement of the slice in which no element is [less] than one
    before it, whenever [less] is a strict weak ordering.  The order of
    elements that [less] does not separate is not fixed. *)
Definition strictWeak {A} (less : A → A → bool) : Prop :=
  (∀ a b, less a b = true → less b a = false) ∧
  (∀ a b c, less a b = false → less b c = false → less a c = false).

Class SliceSorter := {
  sortSlice : (Operation → Operation → bool) → list Operation → list Operation;
  sortSlice_perm : ∀ less l, sortSlice less l ≡ₚ l;
  sortSlice_sorted : ∀ less l, strictWeak less →
    StronglySorted (λ a b, less b a = false) (sortSlice less l)
}.

(** What [sort.Slice] runs on a slice of at most twelve elements,
    [insertionSort_func]: each element in turn is swapped leftwards while
    it is [less] than its left neighbour.  [sink] works on the reversed
    prefix, nearest neighbour first. *)
Fixpoint sink {A} (less : A → A → bool) (x : A) (before : list A) : list A :=
  match before with
  | [] => [x]
  | y :: before' =>
    if less x y then y :: sink less x before' else x :: y :: before'
  end.

Definition insertionSort {A} (less : A → A → bool) (l : list A) : list A :=
  rev (fold_left (λ before x, sink less x before) l []).

(** The maps [keyOps] and [clientOps]:
    [m[f(op)] = append(m[f(op)], op)] for each [op] in turn. *)
Definition groupBy (f : Operation → string) (ops : list Operation)
  : gmap string (list Operation) :=
  fold_left (λ (m : gmap string (list Operation)) op,
               <[f op := default [] (m !! f op) ++ [op]]> m) ops ∅.

(** The test inside the inner loop of [checkKeyConsistency]. *)
Definition explains (key : string) (op otherOp : Operation) : bool :=
  String.eqb (op_Op otherOp) "PUT" && String.eqb (op_Key otherOp) key &&
  String.eqb (op_Value otherOp) (op_Value op) &&
  Before (op_Start otherOp) (op_End op) && After (op_End otherOp) (op_Start op).

(** The outer loop of [checkKeyConsistency] over the rest of the sorted
    slice [ops], with the current [latestValue]. *)
Fixpoint keyLoop (key : string) (ops : list Operation) (latestValue : string)
  (rest : list Operation) : bool :=
  match rest with
  | [] => true
  | op :: rest' =>
    if String.eqb (op_Op op) "PUT" && String.eqb (op_Result op) "ok"
    then keyLoop key ops (op_Value op) rest'
    else if String.eqb (op_Op op) "GET" then
      if String.eqb (op_Result op) "ok" &&
         negb (String.eqb (op_Value op) latestValue)
      then
        let found := existsb (explains key op) ops in
        if negb found then false else keyLoop key ops latestValue rest'
      else keyLoop key ops latestValue rest'
    else keyLoop key ops latestValue rest'
  end.

(** The backwards scan [for j := i - 1; j >= 0; j--] of
    [checkReadYourWrite]; [before] is the prefix [clientOps[:i]]
    reversed. *)
Fixpoint lastWriteOf (key : string) (before : list Operation) : string :=
  match before with
  | [] => ""
  | o :: before' =>
    if String.eqb (op_Op o) "PUT" && String.eqb (op_Key o) key
    then op_Value o else lastWriteOf key before'
  end.

(** The loop of [checkReadYourWrite] over one client's sorted slice. *)
Fixpoint rywLoop (before rest : list Operation) : bool :=
  match rest with
  | [] => true
  | op :: rest' =>
    if String.eqb (op_Op op) "GET" then
      let lastWrite := lastWriteOf (op_Key op) before in
      if negb (String.eqb lastWrite "") &&
         negb (String.eqb (op_Value op) lastWrite)
      then false else rywLoop (op :: before) rest'
    else rywLoop (op :: before) rest'
  end.

(** The loop of [checkMonotonicReads] over one client's sorted slice:
    it maintains [keyValues]; the branch taken when the value differs
    from the last one read is empty. *)
Fixpoint monotonicLoop (keyValues : gmap string string)
  (rest : list Operation) : gmap string string :=
  match rest with
  | [] => keyValues
  | op :: rest' =>
    if String.eqb (op_Op op) "GET" && String.eqb (op_Result op) "ok" then
      let keyValues' :=
        match keyValues !! op_Key op with
        | Some lastValue =>
          if negb (String.eqb lastValue (op_Value op))
          then keyValues else keyValues
        | None => keyValues
        end in
      monotonicLoop (<[op_Key op := op_Value op]> keyValues') rest'
    else monotonicLoop keyValues rest'
  end.

Definition keyViolation (key : string) : string :=
  ("Key '" ++ key ++ "' has inconsistent operations")%string.
Definition rywViolation : string := "Read-your-write consistency violated".
Definition monotonicViolation : string := "Monotonic reads violated".

Section Checker.
Context `{SliceSorter}.

Definition checkKeyConsistency (key : string) (ops : list Operation) : bool :=
  let ops := sortSlice startBefore ops in
  keyLoop key ops "" ops.

(** Go ranges over the map in an unspecified order; the result is the
    conjunction over the clients, whatever the order. *)
Definition checkReadYourWrite (ops : list Operation) : bool :=
  let clientOps := groupBy op_ClientID ops in
  forallb (λ kc, rywLoop [] (sortSlice startBefore kc.2))
          (map_to_list clientOps).

Definition checkMonotonicReads (ops : list Operation) : bool :=
  let clientOps := groupBy op_ClientID ops in
  let _ := map (λ kc, monotonicLoop ∅ (sortSlice startBefore kc.2))
               (map_to_list clientOps) in
  true.

(** The violations of the per-key pass, in the order of the range over
    [keyOps]. *)
Definition keyViolations (keyOps : list (string * list Operation))
  : list string :=
  flat_map (λ kc, if negb (checkKeyConsistency kc.1 kc.2)
                  then [keyViolation kc.1] else []) keyOps.

Definition CheckLinearizability (history : list HistoryEntry)
  : bool * list string :=
  if Nat.eqb (length history) 0 then (true, [])
  else
    let ops := map toOperation history in
    let keyOps := groupBy op_Key ops in
    let violations := keyViolations (map_to_list keyOps) in
    let violations :=
      if negb (checkReadYourWrite ops)
      then violations ++ [rywViolation] else violations in
    let violations :=
      if negb (checkMonotonicReads ops)
      then violations ++ [monotonicViolation] else violations in
    (Nat.eqb (length violations) 0, violations).
End Checker.

(** Whether [o] is a [Put] to [key], the test of the backwards scan. *)
Definition putTo (key : string) (o : Operation) : bool :=
  String.eqb (op_Op o) "PUT" && String.eqb (op_Key o) key.

(** *** Read-your-writes as the spec words it

    A client is a request identifier.  [g] is a [Get], [p] the same
    client's latest-starting Ok [Put] to the same key that started
    before [g]; [g] returns an older value than [p] wrote when it
    returns a different one and either found nothing or returns what an
    Ok write that had ended by the time [p] started wrote. *)
Definition ownOkPutBefore (hist : list HistoryEntry) (g p : HistoryEntry)
  : Prop :=
  p ∈ hist ∧ Op p = "PUT" ∧ Result p = "ok" ∧
  RequestID p = RequestID g ∧ Key p = Key g ∧ (Start p < Start g)%Z.

Definition mostRecentOwnOkPut (hist : list HistoryEntry)
  (g p : HistoryEntry) : Prop :=
  ownOkPutBefore hist g p ∧
  ∀ q, ownOkPutBefore hist g q → (Start q ≤ Start p)%Z.

Definition returnsOlderThan (hist : list HistoryEntry) (g p : HistoryEntry)
  : Prop :=
  Value g ≠ Value p ∧
  (Result g = "not_found" ∨
   ∃ w, w ∈ hist ∧ Op w = "PUT" ∧ Result w = "ok" ∧ Key w = Key g ∧
        Value w = Value g ∧ (End_ w ≤ Start p)%Z).

Definition staleOwnRead (hist : list HistoryEntry) : Prop :=
  ∃ g p, g ∈ hist ∧ Op g = "GET" ∧ mostRecentOwnOkPut hist g p ∧
         returnsOlderThan hist g p.

(** No client has two records with the same start time. *)
Definition distinctStarts (hist : list HistoryEntry) : Prop :=
  NoDup (map (λ h, (RequestID h, Start h)) hist).

(** *** Histories used below *)

Definition entry (requestID op key value result : string) (start end_ : Z)
  : HistoryEntry :=
  {| RequestID := requestID; Op := op; Key := key; Value := value;
     Result := result; Start := start; End_ := end_;
     Duration := Sub end_ start |}.

(** A [Get] that takes no time, and the only write of its value
    starting at that very instant, logged first. *)
Definition tieHistory : list HistoryEntry :=
  [entry "w" "PUT" "k" "y" "ok" 5 7; entry "g" "GET" "k" "y" "ok" 5 5].

(** A [Get] of a value written only after the [Get] had ended. *)
Definition lateWriteHistory : list HistoryEntry :=
  [entry "g" "GET" "k" "y" "ok" 1 5; entry "w" "PUT" "k" "y" "ok" 5 7].

(** ["y"] is overwritten by ["z"]; a retry of the first [Put] is
    answered Duplicate while a [Get] still returns ["y"]. *)
Definition staleReadWithRetry : list HistoryEntry :=
  [entry "d" "PUT" "k" "y" "ok" 0 1; entry "e" "PUT" "k" "z" "ok" 2 3;
   entry "d" "PUT" "k" "y" "duplicate" 4 10;
   entry "g" "GET" "k" "y" "ok" 5 6].

(** Client ["c"] reads the new value, then the old one again. *)
Definition regressingReads : list HistoryEntry :=
  [entry "r1" "PUT" "k" "old" "ok" 0 1; entry "r2" "PUT" "k" "new" "ok" 2 3;
   entry "c" "GET" "k" "new" "ok" 4 5; entry "c" "GET" "k" "old" "ok" 6 7].

(** Client ["A"] writes, client ["B"] overwrites, ["A"] reads what ["B"]
    wrote. *)
Definition newerRead : list HistoryEntry :=
  [entry "A" "PUT" "k" "x" "ok" 0 1; entry "B" "PUT" "k" "y" "ok" 2 3;
   entry "A" "GET" "k" "y" "ok" 4 5].

(** A [Put] has returned Ok; a later [Get] without a request
    identifier finds nothing. *)
Definition missedWrite : list HistoryEntry :=
  [entry "r1" "PUT" "k" "x" "ok" 0 1;
   entry "" "GET" "k" "" "not_found" 2 3].

(** The same, with the [Get] carrying the request identifier of the
    [Put]. *)
Definition missedOwnWrite : list HistoryEntry :=
  [entry "c" "PUT" "k" "x" "ok" 0 1;
   entry "c" "GET" "k" "" "not_found" 2 3].

(** A client retries its [Put] with another value and is answered
    Duplicate; its [Get] returns the value that was stored. *)
Definition retryThenRead : list HistoryEntry :=
  [entry "r" "PUT" "k" "x" "ok" 0 1; entry "r" "PUT" "k" "z" "duplicate" 2 3;
   entry "r" "GET" "k" "x" "ok" 4 5].

(** A client stores the empty string; its [Get] returns an older
    value. *)
Definition emptyOwnWrite : list HistoryEntry :=
  [entry "b" "PUT" "k" "old" "ok" 0 1; entry "a" "PUT" "k" "" "ok" 2 3;
   entry "a" "GET" "k" "old" "ok" 4 5].

(** A client stores the empty string; its [Get] finds nothing. *)
Definition emptyThenNotFound : list HistoryEntry :=
  [entry "c" "PUT" "k" "" "ok" 0 1;
   entry "c" "GET" "k" "" "not_found" 2 3].

(** ** Runs of the store one request at a time *)

(** The clock has advanced when the request reads its start time. *)
Definition ticking (r : Request) : Prop :=
  match r with
  | DoPut _ d1 _ | DoGet _ _ d1 _ => (0 < d1)%N
  end.

(** What a sequential run keeps: the log replays on the register to the
    store's map and dedup set, and its records start one strictly after
    the other, all before the current clock reading. *)
Definition seqInv (c : Z) (s : Store) : Prop :=
  registerRun (history s) (∅, ∅) = Some (kv s, seenWrite s) ∧
  Forall (λ h, (Start h ≤ c)%Z) (history s) ∧
  StronglySorted (λ a b, (Start a < Start b)%Z) (history s).

(** Client ["A"] writes, client ["B"] overwrites, ["A"] reads: three
    requests served one after the other. *)
Definition overwrittenThenRead : list Request :=
  [DoPut (Some (mkPutRequest "A" "k" "x")) 1 1;
   DoPut (Some (mkPutRequest "B" "k" "y")) 1 1;
   DoGet "k" "A" 1 1].

(** Two [Put]s race: the one that started first gets the mutex last,
    so its value stays; a later [Get] reads it. *)
Definition overtakingEvents : list Event :=
  [ArrivePut (Some (mkPutRequest "A" "k" "x"));
   ArrivePut (Some (mkPutRequest "B" "k" "y"));
   Run 0 1; Run 1 1;
   Run 1 0; Run 1 0; Run 1 1; Run 1 0; Run 1 0;
   Run 0 0; Run 0 0; Run 0 1; Run 0 0; Run 0 0;
   ArriveGet "k" "";
   Run 2 1; Run 2 0; Run 2 0; Run 2 1; Run 2 0; Run 2 0].

Definition overtakenState : System :=
  default (initial 0) (runEvents overtakingEvents (initial 0)).

(** ** What the log says about the store *)

(** [h] records a [Put] that was applied under request identifier [id]. *)
Definition appliedBy (id : string) (h : HistoryEntry) : Prop :=
  Op h = "PUT" ∧ Result h = "ok" ∧ RequestID h = id.

(** The value of the last applied [Put] to [key] in the log, if any. *)
Definition lastOkPut (key : string) (l : list HistoryEntry) : option string :=
  last (map Value
          (filter (λ h, Op h = "PUT" ∧ Result h = "ok" ∧ Key h = key) l)).

(** *** Linearizations as the spec defines them

    Along the order [l] every [Get] with outcome Ok returns the value
    of the closest preceding Ok [Put] to its key, and a [Get] with
    outcome NotFound has no Ok [Put] to its key before it. *)
Definition readsLegal (l : list HistoryEntry) : Prop :=
  ∀ pre g post, l = pre ++ g :: post → Op g = "GET" →
    match lastOkPut (Key g) pre with
    | Some v => Result g = "ok" ∧ Value g = v
    | None => Result g = "not_found"
    end.

(** [L] is a linearization of the history [hist] with respect to the
    precedence [prec]: a total order of its records that extends
    [prec] and along which the reads are legal. *)
Definition linearization (prec : HistoryEntry → HistoryEntry → Prop)
  (hist L : list HistoryEntry) : Prop :=
  L ≡ₚ hist ∧ respectsRealTime prec L ∧ readsLegal L.

(** A [Put] reads its start time, then a [Get] reads its own and goes
    through the critical section first; the clock does not advance
    between the start of the [Get] and the end of the [Put]. *)
Definition tieEvents : list Event :=
  [ArrivePut (Some (mkPutRequest "1" "k" "x")); ArriveGet "k" "";
   Run 0 1; Run 1 1;
   Run 1 0; Run 1 0; Run 1 0; Run 1 0; Run 1 0;
   Run 0 0; Run 0 0; Run 0 0; Run 0 0; Run 0 0].

Definition tieState : System :=
  default (initial 0) (runEvents tieEvents (initial 0)).

(** A record as the handlers write them: a key, the duration between
    its two clock readings, and either a [Put] with a request
    identifier and outcome Ok or Duplicate, or a [Get] that is Ok or
    found nothing and then carries no value. *)
Definition wellFormed (h : HistoryEntry) : Prop :=
  Key h ≠ "" ∧ Duration h = (End_ h - Start h)%Z ∧
  ((Op h = "PUT" ∧ RequestID h ≠ "" ∧
    (Result h = "ok" ∨ Result h = "duplicate")) ∨
   (Op h = "GET" ∧
    (Result h = "ok" ∨ (Result h = "not_found" ∧ Value h = "")))).

(** What a goroutine past the validation holds in its locals. *)
Definition pcValid (p : pc) : Prop :=
  match p with
  | PutWantLock req _ | PutInCS req _ => putInvalid req = false
  | PutApplied req _ result | PutStamped req _ result _ =>
    putInvalid req = false ∧ (result = "ok" ∨ result = "duplicate")
  | GetWantLock key _ _ | GetInCS key _ _ => key ≠ ""
  | GetLooked key _ _ value ok | GetStamped key _ _ value ok _ =>
    key ≠ "" ∧ (ok = false → value = "")
  | _ => True
  end.

(** ** The [/kv] endpoint *)

Definition StatusMethodNotAllowed : Z := 405.

(** What the endpoint reads of a request: the method, the decoded body
    ([None] when it does not parse), the [key] query parameter, the
    [X-Request-ID] header, and the two clock advances of the handler. *)
Record Call := mkCall {
  call_method : string;
  call_body : option putRequest;
  call_key : string;
  call_reqID : string;
  call_d1 : N;
  call_d2 : N
}.

(** The function [main] registers for ["/kv"]: a switch on the method. *)
Definition kvEndpoint (r : Call) (clock : Z) (s : Store)
  : Response * Z * Store :=
  if String.eqb (call_method r) "PUT" || String.eqb (call_method r) "POST"
  then handlePut (call_body r) (call_d1 r) (call_d2 r) clock s
  else if String.eqb (call_method r) "GET"
  then handleGet (call_key r) (call_reqID r) (call_d1 r) (call_d2 r) clock s
  else (HttpError "method not allowed" StatusMethodNotAllowed, clock, s).

Fixpoint kvEndpointAll (calls : list Call) (clock : Z) (s : Store)
  : list Response * Z * Store :=
  match calls with
  | [] => ([], clock, s)
  | r :: calls' =>
    let '(resp, c1, s1) := kvEndpoint r clock s in
    let '(resps, c2, s2) := kvEndpointAll calls' c1 s1 in
    (resp :: resps, c2, s2)
  end.

(** The [result] field of an answer that is not an error. *)
Definition answered (r : Response) : list string :=
  match r with
  | HttpError _ _ => []
  | PutReply result => [result]
  | GetReply g => [resp_Result g]
  end.

(** ** Pieces of [handleTimeline] that do not involve floating point *)

(** The loop that finds the time span of the (non-empty) copy of the
    log: [earliest] and [latest] start at the first entry and are
    lowered and raised entry by entry.  On an empty log the handler has
    already returned. *)
Definition timelineSpan (historyCopy : list HistoryEntry) : option (Z * Z) :=
  match historyCopy with
  | [] => None
  | first :: _ =>
    Some (fold_left
            (λ (el : Z * Z) entry,
               (if Before (Start entry) el.1 then Start entry else el.1,
                if After (End_ entry) el.2 then End_ entry else el.2))
            historyCopy (Start first, End_ first))
  end.

(** [if len(value) > 8 { value = value[:8] + "..." }], on bytes. *)
Definition timelineValue (value : string) : string :=
  if Nat.ltb 8 (String.length value)
  then (String.substring 0 8 value ++ "...")%string
  else value.

(** [Put]s only: one answered Duplicate, one overlapping it. *)
Definition writesOnly : list HistoryEntry :=
  [entry "a" "PUT" "k" "x" "duplicate" 0 5; entry "b" "PUT" "k" "y" "ok" 1 3].

(** Another procedure [sort.Slice] may run, the contract fixing no order
    among elements that [less] does not separate: an insertion sort
    that moves each element leftwards past every element that is not
    [less] than it, so that it ends before its equals. *)
Fixpoint sinkPastEquals {A} (less : A → A → bool) (x : A) (before : list A)
  : list A :=
  match before with
  | [] => [x]
  | y :: before' =>
    if less y x then x :: y :: before'
    else y :: sinkPastEquals less x before'
  end.

Definition insertionSortPastEquals {A} (less : A → A → bool) (l : list A)
  : list A :=
  rev (fold_left (λ before x, sinkPastEquals less x before) l []).

(** * Properties *)

(** ** The insertion sort meets the contract of [sort.Slice] *)

Section InsertionSort.
Context {A : Type} (less : A → A → bool).

Lemma sink_perm x before : sink less x before ≡ₚ x :: before.
Proof.
  induction before as [|y before IH]; simpl; [done|].
  destruct (less x y); [|done].
  rewrite IH. apply Permutation_swap.
Qed.

Lemma insertion_fold_perm l acc :
  fold_left (λ before x, sink less x before) l acc ≡ₚ l ++ acc.
Proof.
  revert acc. induction l as [|x l IH]; intros acc; simpl; [done|].
  rewrite IH, sink_perm. by rewrite Permutation_middle.
Qed.

Lemma insertionSort_perm l : insertionSort less l ≡ₚ l.
Proof.
  unfold insertionSort. rewrite <- Permutation_rev, insertion_fold_perm.
  by rewrite app_nil_r.
Qed.

Hypothesis less_sw : strictWeak less.

Lemma sink_sorted x before :
  StronglySorted (λ a b, less a b = false) before →
  StronglySorted (λ a b, less a b = false) (sink less x before).
Proof.
  destruct less_sw as [Hasym Htrans].
  induction 1 as [|y before Hs IH Hy]; simpl.
  - repeat constructor.
  - destruct (less x y) eqn:Hxy.
    + constructor; [done|].
      rewrite sink_perm. constructor; [by apply Hasym | done].
    + constructor; [by constructor|].
      constructor; [done|].
      eapply Forall_impl; [exact Hy|]. simpl. intros z Hz. eauto.
Qed.

Lemma insertion_fold_sorted l acc :
  StronglySorted (λ a b, less a b = false) acc →
  StronglySorted (λ a b, less a b = false)
    (fold_left (λ before x, sink less x before) l acc).
Proof.
  revert acc. induction l as [|x l IH]; intros acc Hacc; simpl; [done|].
  by apply IH, sink_sorted.
Qed.

Lemma StronglySorted_rev_flip (R : A → A → Prop) l :
  StronglySorted R l → StronglySorted (λ a b, R b a) (rev l).
Proof.
  induction 1 as [|x l Hs IH Hx]; simpl; [constructor|].
  apply StronglySorted_app_2; [|done|repeat constructor].
  intros a b Ha Hb. apply list_elem_of_singleton in Hb as ->.
  rewrite Forall_forall in Hx. apply Hx.
  apply list_elem_of_In. apply list_elem_of_In in Ha.
  by apply in_rev.
Qed.

Lemma insertionSort_sorted l :
  StronglySorted (λ a b, less b a = false) (insertionSort less l).
Proof.
  unfold insertionSort.
  apply (StronglySorted_rev_flip (λ a b, less a b = false)).
  apply insertion_fold_sorted. constructor.
Qed.
End InsertionSort.

(** Go's sorter on short slices, as an instance of the contract. *)
Definition goInsertionSort : SliceSorter :=
  {| sortSlice := insertionSort;
     sortSlice_perm := insertionSort_perm;
     sortSlice_sorted := λ less l Hsw, insertionSort_sorted less Hsw l |}.

(** ** The store, one handler at a time *)

Lemma putInvalid_spec req :
  putInvalid req = true ↔ req_RequestID req = "" ∨ req_Key req = "".
Proof.
  unfold putInvalid. rewrite orb_true_iff, !String.eqb_eq. tauto.
Qed.

Lemma applyPut_seen req s :
  req_RequestID req ∈ seenWrite s → applyPut req s = ("duplicate", s).
Proof.
  intros Hin. unfold applyPut. by rewrite bool_decide_eq_true_2.
Qed.

Lemma applyPut_fresh req s :
  req_RequestID req ∉ seenWrite s →
  applyPut req s =
    ("ok", {| kv := <[req_Key req := req_Value req]> (kv s);
              seenWrite := {[req_RequestID req]} ∪ seenWrite s;
              history := history s |}).
Proof.
  intros Hin. unfold applyPut. by rewrite bool_decide_eq_false_2.
Qed.

Lemma applyPut_history req s : history (applyPut req s).2 = history s.
Proof. unfold applyPut. by case_bool_decide. Qed.

Lemma applyPut_seen_mono req s :
  seenWrite s ⊆ seenWrite (applyPut req s).2.
Proof. unfold applyPut. case_bool_decide; simpl; set_solver. Qed.

(** A [Put] answers Ok only if it left its request identifier in the
    dedup set. *)
Lemma handlePut_ok_seen req d1 d2 c s c' s' :
  handlePut (Some req) d1 d2 c s = (PutReply "ok", c', s') →
  req_RequestID req ∈ seenWrite s'.
Proof.
  unfold handlePut. destruct (putInvalid req); [done|].
  unfold applyPut. case_bool_decide; simpl; intros [= <- <-]; simpl.
  set_solver.
Qed.

(** The dedup set only grows, whatever is served. *)
Lemma serve_seen_mono r c s : seenWrite s ⊆ seenWrite (serve r c s).2.
Proof.
  destruct r as [[req|] d1 d2|key reqID d1 d2]; simpl.
  - unfold handlePut. destruct (putInvalid req); [done|].
    pose proof (applyPut_seen_mono req s) as Hm.
    destruct (applyPut req s) as [result s1]. done.
  - done.
  - unfold handleGet. destruct (String.eqb key ""); [done|].
    by destruct (kvLookup (kv s) key).
Qed.

Lemma serveAll_seen_mono rs c s : seenWrite s ⊆ seenWrite (serveAll rs c s).2.
Proof.
  revert c s. induction rs as [|r rs IH]; intros c s; simpl; [done|].
  pose proof (serve_seen_mono r c s) as Hm.
  destruct (serve r c s) as [[resp c1] s1]. simpl in Hm.
  etrans; [exact Hm | apply IH].
Qed.

(** A valid [Put] whose request identifier is in the dedup set answers
    Duplicate, appends its record and touches nothing else. *)
Lemma handlePut_seen req d1 d2 c s :
  putInvalid req = false →
  req_RequestID req ∈ seenWrite s →
  handlePut (Some req) d1 d2 c s =
    (PutReply "duplicate", time_Now d2 (time_Now d1 c),
     recordHistory
       (putEntry req "duplicate" (time_Now d1 c) (time_Now d2 (time_Now d1 c)))
       s).
Proof.
  intros Hv Hin. unfold handlePut. rewrite Hv.
  by rewrite (applyPut_seen _ _ Hin).
Qed.

(** C10: deduplication looks at the request identifier only.  In any
    store state whose dedup set holds [requestId], for any non-empty
    key and any value, the test-and-update of [handlePut] answers
    Duplicate and returns the store it was given, and the handler as a
    whole answers Duplicate with the key/value map and the dedup set as
    they were, appending only its own Duplicate record to the log. *)
Theorem put_dedup_by_request_id_alone
  (s : Store) (requestId key value : string) (d1 d2 : N) (c : Z) :
  requestId ∈ seenWrite s →
  requestId ≠ "" → key ≠ "" →
  applyPut (mkPutRequest requestId key value) s = ("duplicate", s) ∧
  ∃ c' s',
    handlePut (Some (mkPutRequest requestId key value)) d1 d2 c s
      = (PutReply "duplicate", c', s') ∧
    kv s' = kv s ∧ seenWrite s' = seenWrite s ∧
    ∃ h, history s' = history s ++ [h] ∧ Result h = "duplicate".
Proof.
  intros Hin Hr Hk.
  set (req := mkPutRequest requestId key value).
  split; [by apply applyPut_seen|].
  assert (putInvalid req = false) as Hv.
  { apply not_true_is_false. rewrite putInvalid_spec. simpl. tauto. }
  rewrite (handlePut_seen req d1 d2 c s Hv Hin).
  eexists _, _. split; [done|]. simpl. repeat split.
  eexists. split; [done|]. done.
Qed.

(** C1: once [Put(requestId, k, v)] has answered Ok, the same [Put]
    answers Duplicate after any further requests, and leaves the
    key/value map and the dedup set as they were before that call. *)
Theorem put_idempotent
  (s : Store) (req : putRequest) (d1 d2 : N) (c c1 : Z) (s1 : Store)
  (rs : list Request) (e1 e2 : N) :
  handlePut (Some req) d1 d2 c s = (PutReply "ok", c1, s1) →
  let '(c2, s2) := serveAll rs c1 s1 in
  ∃ c3 s3,
    handlePut (Some req) e1 e2 c2 s2 = (PutReply "duplicate", c3, s3) ∧
    kv s3 = kv s2 ∧ seenWrite s3 = seenWrite s2.
Proof.
  intros Hok.
  pose proof (handlePut_ok_seen _ _ _ _ _ _ _ Hok) as Hin.
  assert (putInvalid req = false) as Hv.
  { unfold handlePut in Hok. by destruct (putInvalid req). }
  pose proof (serveAll_seen_mono rs c1 s1) as Hm.
  destruct (serveAll rs c1 s1) as [c2 s2]. simpl in Hm.
  rewrite (handlePut_seen req e1 e2 c2 s2 Hv); [|set_solver].
  by eexists _, _.
Qed.

Lemma put_idempotent_witness :
  let req := mkPutRequest "1" "a" "x" in
  let s1 := (handlePut (Some req) 1 1 0 NewStore).2 in
  let '(c2, s2) := serveAll [DoGet "a" "" 1 1; DoPut (Some req) 0 3] 2 s1 in
  ∃ c3 s3,
    handlePut (Some req) 1 1 c2 s2 = (PutReply "duplicate", c3, s3) ∧
    kv s3 = kv s2 ∧ seenWrite s3 = seenWrite s2.
Proof.
  intros req s1.
  apply (put_idempotent NewStore req 1 1 0 2 s1
           [DoGet "a" "" 1 1; DoPut (Some req) 0 3] 1 1).
  vm_compute. reflexivity.
Defined.

Lemma put_dedup_by_request_id_alone_witness :
  let s := (handlePut (Some (mkPutRequest "1" "a" "x")) 1 1 0 NewStore).2 in
  applyPut (mkPutRequest "1" "b" "z") s = ("duplicate", s) ∧
  ∃ c' s',
    handlePut (Some (mkPutRequest "1" "b" "z")) 1 1 2 s
      = (PutReply "duplicate", c', s') ∧
    kv s' = kv s ∧ seenWrite s' = seenWrite s ∧
    ∃ h, history s' = history s ++ [h] ∧ Result h = "duplicate".
Proof.
  intros s.
  apply (put_dedup_by_request_id_alone s "1" "b" "z" 1 1 2).
  - vm_compute. reflexivity.
  - discriminate.
  - discriminate.
Defined.

Lemma handlePut_response body d1 d2 c s :
  (handlePut body d1 d2 c s).1.1 =
    match body with
    | None => HttpError "invalid JSON" StatusBadRequest
    | Some req =>
      if putInvalid req
      then HttpError "requestId and key required" StatusBadRequest
      else PutReply (applyPut req s).1
    end.
Proof.
  unfold handlePut. destruct body as [req|]; [|done].
  destruct (putInvalid req); [done|]. by destruct (applyPut req s).
Qed.

Lemma handleGet_response key reqID d1 d2 c s :
  (handleGet key reqID d1 d2 c s).1.1 =
    if String.eqb key "" then HttpError "key required" StatusBadRequest
    else GetReply {| resp_Key := key; resp_Value := (kvLookup (kv s) key).1;
                     resp_Found := (kvLookup (kv s) key).2;
                     resp_Result := getResult (kvLookup (kv s) key).2 |}.
Proof.
  unfold handleGet. destruct (String.eqb key ""); [done|].
  by destruct (kvLookup (kv s) key).
Qed.

(** C7: [Put] answers InvalidArgument exactly when the request
    identifier or the key is empty, [Get] exactly when the key is
    empty, and a handler that answers InvalidArgument returns the store
    (key/value map, dedup set and log) it was given. *)
Theorem invalid_argument_exact :
  (∀ body d1 d2 c s,
     (InvalidArgument (handlePut body d1 d2 c s).1.1 ↔
      ∃ req, body = Some req ∧ (req_RequestID req = "" ∨ req_Key req = "")) ∧
     (InvalidArgument (handlePut body d1 d2 c s).1.1 →
      (handlePut body d1 d2 c s).2 = s)) ∧
  (∀ key reqID d1 d2 c s,
     (InvalidArgument (handleGet key reqID d1 d2 c s).1.1 ↔ key = "") ∧
     (InvalidArgument (handleGet key reqID d1 d2 c s).1.1 →
      (handleGet key reqID d1 d2 c s).2 = s)).
Proof.
  split.
  - intros body d1 d2 c s. rewrite handlePut_response.
    destruct body as [req|].
    + destruct (putInvalid req) eqn:Hv.
      * split.
        -- split; [|intros _; by left].
           intros _. exists req. split; [done|]. by apply putInvalid_spec.
        -- intros _. unfold handlePut. by rewrite Hv.
      * assert (¬ InvalidArgument (PutReply (applyPut req s).1)) as Hn.
        { intros [?|?]; discriminate. }
        split; [|done]. split; [done|].
        intros (req' & [= <-] & Hem). apply putInvalid_spec in Hem.
        congruence.
    + assert (¬ InvalidArgument (HttpError "invalid JSON" StatusBadRequest))
        as Hn.
      { intros [?|?]; discriminate. }
      split; [|done]. split; [done|]. by intros (req' & ? & _).
  - intros key reqID d1 d2 c s. rewrite handleGet_response.
    destruct (String.eqb key "") eqn:Hk.
    + apply String.eqb_eq in Hk. split.
      * split; [done|]. intros _. by right.
      * intros _. unfold handleGet. subst key. done.
    + apply String.eqb_neq in Hk.
      split; [split; [|done]|]; intros [?|?]; discriminate.
Qed.

(** ** The goroutines around the mutex *)

Lemma csCount_app l1 l2 : csCount (l1 ++ l2) = csCount l1 + csCount l2.
Proof. unfold csCount. by rewrite filter_app, length_app. Qed.

Lemma csCount_cons p l :
  csCount (p :: l) = (if inCS p then 1 else 0) + csCount l.
Proof.
  unfold csCount. rewrite filter_cons.
  destruct (decide (inCS p = true)) as [->|Hn]; [done|].
  by apply not_true_is_false in Hn as ->.
Qed.

Lemma csCount_middle l1 p l2 :
  csCount (l1 ++ p :: l2) =
  csCount l1 + (if inCS p then 1 else 0) + csCount l2.
Proof. rewrite csCount_app, csCount_cons. lia. Qed.

Lemma pendingOf_inCS p : inCS p = false → pendingOf p = [].
Proof. by destruct p. Qed.

Lemma csCount_0_outside l :
  csCount l = 0 → Forall (λ p, inCS p = false) l.
Proof.
  induction l as [|p l IH]; [constructor|].
  rewrite csCount_cons. destruct (inCS p) eqn:Hp; [lia|].
  intros Hl. constructor; [done | by apply IH].
Qed.

Lemma csCount_0_pendings l : csCount l = 0 → pendings l = [].
Proof.
  intros Hl. apply csCount_0_outside in Hl.
  unfold pendings. induction Hl as [|p l Hp _ IH]; simpl; [done|].
  by rewrite (pendingOf_inCS p Hp), IH.
Qed.

Lemma pendings_middle l1 p l2 :
  pendings (l1 ++ p :: l2) = pendings l1 ++ pendingOf p ++ pendings l2.
Proof. unfold pendings. by rewrite flat_map_app. Qed.

Lemma registerRun_app l1 l2 r :
  registerRun (l1 ++ l2) r =
  match registerRun l1 r with
  | Some r' => registerRun l2 r'
  | None => None
  end.
Proof.
  revert r. induction l1 as [|h l1 IH]; intros r; simpl; [done|].
  destruct (registerStep h r); [apply IH | done].
Qed.

Lemma registerRun_snoc l h r r' :
  registerRun l r = Some r' →
  registerRun (l ++ [h]) r = registerStep h r'.
Proof.
  intros Hl. rewrite registerRun_app, Hl. simpl.
  by destruct (registerStep h r').
Qed.

Lemma registerStep_put req start end_ s :
  registerStep (putEntry req (applyPut req s).1 start end_)
               (kv s, seenWrite s)
  = Some (kv (applyPut req s).2, seenWrite (applyPut req s).2).
Proof.
  unfold registerStep, applyPut. simpl.
  case_bool_decide; simpl; done.
Qed.

Lemma registerStep_get key reqID start end_ m seen :
  registerStep (getEntry key reqID (kvLookup m key).1 (kvLookup m key).2
                         start end_) (m, seen)
  = Some (m, seen).
Proof.
  unfold registerStep, kvLookup. simpl.
  destruct (m !! key) as [v|]; simpl; [|done].
  by rewrite String.eqb_refl.
Qed.

(** The replay does not look at timestamps. *)
Lemma registerStep_times h h' r :
  RequestID h = RequestID h' → Op h = Op h' → Key h = Key h' →
  Value h = Value h' → Result h = Result h' →
  registerStep h r = registerStep h' r.
Proof.
  intros H1 H2 H3 H4 H5. unfold registerStep.
  by rewrite H1, H2, H3, H4, H5.
Qed.

Lemma threadTimed_outside clk hist clk' hist' p :
  inCS p = false → (clk ≤ clk')%Z →
  threadTimed clk hist p → threadTimed clk' hist' p.
Proof. destruct p; simpl; try done; intros _ ? ?; lia. Qed.

Lemma threadTimed_clock clk hist clk' p :
  (clk ≤ clk')%Z → threadTimed clk hist p → threadTimed clk' hist p.
Proof.
  destruct p; simpl; try done; try lia; intros ? [? ?]; (split; [lia|done]).
Qed.

Lemma time_Now_le d clk : (clk ≤ time_Now d clk)%Z.
Proof. unfold time_Now. lia. Qed.

Lemma storeInv_initial c0 : storeInv (initial c0).
Proof. split; simpl; try done; constructor. Qed.

Lemma lookup_split (l : list pc) i p :
  l !! i = Some p →
  ∃ l1 l2, l = l1 ++ p :: l2 ∧ ∀ p', <[i:=p']> l = l1 ++ p' :: l2.
Proof.
  intros Hi. exists (take i l), (drop (S i) l). split.
  - by rewrite take_drop_middle.
  - intros p'. apply insert_take_drop. by eapply lookup_lt_Some.
Qed.

Lemma threads_outside clk hist clk' hist' l :
  csCount l = 0 → (clk ≤ clk')%Z →
  Forall (threadTimed clk hist) l → Forall (threadTimed clk' hist') l.
Proof.
  intros Hl Hc Ht. apply csCount_0_outside in Hl.
  induction Hl as [|p l Hp _ IH]; [constructor|].
  apply Forall_cons in Ht as [Ht1 Ht2].
  constructor; [by eapply threadTimed_outside | by apply IH].
Qed.

Lemma threads_clock clk hist clk' l :
  (clk ≤ clk')%Z →
  Forall (threadTimed clk hist) l → Forall (threadTimed clk' hist) l.
Proof.
  intros Hc Hf. eapply Forall_impl; [exact Hf|].
  intros p. by apply threadTimed_clock.
Qed.

Lemma entries_clock clk clk' (hist : list HistoryEntry) :
  (clk ≤ clk')%Z →
  Forall (λ h, (Start h ≤ End_ h ≤ clk)%Z) hist →
  Forall (λ h, (Start h ≤ End_ h ≤ clk')%Z) hist.
Proof.
  intros Hc Hf. eapply Forall_impl; [exact Hf|]. simpl. intros h. lia.
Qed.

Lemma ends_snoc (hist : list HistoryEntry) h :
  StronglySorted (λ a b, (End_ a ≤ End_ b)%Z) hist →
  Forall (λ a, (End_ a ≤ End_ h)%Z) hist →
  StronglySorted (λ a b, (End_ a ≤ End_ b)%Z) (hist ++ [h]).
Proof.
  intros Hs Hf. apply StronglySorted_app_2; [|done|repeat constructor].
  intros a b Ha Hb. apply list_elem_of_singleton in Hb as ->.
  rewrite Forall_forall in Hf. by apply Hf.
Qed.

Lemma storeInv_arrive σ p :
  inCS p = false → threadTimed (clock σ) (history (store σ)) p →
  storeInv σ →
  storeInv {| store := store σ; clock := clock σ; mu := mu σ;
              threads := threads σ ++ [p] |}.
Proof.
  intros Hp Ht [Hmu Hreg Hent Hends Hth]. split; simpl; try done.
  - rewrite csCount_app, csCount_cons, Hp. simpl. unfold csCount at 2.
    simpl. lia.
  - unfold pendings in *. rewrite flat_map_app. simpl.
    by rewrite (pendingOf_inCS p Hp), !app_nil_r.
  - apply Forall_app. split; [done|]. by constructor.
Qed.

(** A goroutine that stays outside the critical section and leaves the
    store and the mutex alone keeps the invariant, also when it reads
    the clock. *)
Lemma storeInv_outside st clk clk' m l1 p p' l2 :
  inCS p = false → inCS p' = false →
  (clk ≤ clk')%Z → threadTimed clk' (history st) p' →
  storeInv {| store := st; clock := clk; mu := m;
              threads := l1 ++ p :: l2 |} →
  storeInv {| store := st; clock := clk'; mu := m;
              threads := l1 ++ p' :: l2 |}.
Proof.
  intros Hp Hp' Hc Ht [Hmu Hreg Hent Hends Hth]; simpl in *.
  rewrite csCount_middle, Hp in Hmu.
  rewrite pendings_middle, (pendingOf_inCS p Hp) in Hreg.
  apply Forall_app in Hth as [Hth1 Hth2].
  apply Forall_cons in Hth2 as [_ Hth2].
  split; simpl.
  - by rewrite csCount_middle, Hp'.
  - by rewrite pendings_middle, (pendingOf_inCS p' Hp').
  - by eapply entries_clock.
  - done.
  - apply Forall_app. split; [by eapply threads_clock|].
    constructor; [done | by eapply threads_clock].
Qed.

(** A goroutine that holds the mutex is alone in the critical section. *)
Lemma holder_alone l1 p l2 (m : bool) :
  inCS p = true →
  csCount (l1 ++ p :: l2) = (if m then 1 else 0) →
  m = true ∧ csCount l1 = 0 ∧ csCount l2 = 0.
Proof.
  intros Hp. rewrite csCount_middle, Hp. destruct m; lia.
Qed.

(** A step inside the critical section, from [p] to [p'], given what it
    does to the store, the clock and the log. *)
Lemma storeInv_inside st st' clk clk' l1 p p' l2 :
  inCS p = true → inCS p' = true →
  (clk ≤ clk')%Z →
  registerRun (history st' ++ pendingOf p') (∅, ∅)
    = Some (kv st', seenWrite st') →
  Forall (λ h, (Start h ≤ End_ h ≤ clk')%Z) (history st') →
  StronglySorted (λ a b, (End_ a ≤ End_ b)%Z) (history st') →
  threadTimed clk' (history st') p' →
  storeInv {| store := st; clock := clk; mu := true;
              threads := l1 ++ p :: l2 |} →
  storeInv {| store := st'; clock := clk'; mu := true;
              threads := l1 ++ p' :: l2 |}.
Proof.
  intros Hp Hp' Hc Hreg' Hent' Hends' Ht' [Hmu Hreg Hent Hends Hth].
  simpl in *.
  destruct (holder_alone _ _ _ true Hp Hmu) as (_ & H1 & H2).
  apply Forall_app in Hth as [Hth1 Hth2].
  apply Forall_cons in Hth2 as [_ Hth2].
  split; simpl; try done.
  - rewrite csCount_middle, Hp', H1, H2. done.
  - rewrite pendings_middle, (csCount_0_pendings _ H1),
      (csCount_0_pendings _ H2). simpl. by rewrite app_nil_r.
  - apply Forall_app. split; [by eapply threads_outside|].
    constructor; [done | by eapply threads_outside].
Qed.

(** What the invariant says to the goroutine in the critical section. *)
Lemma storeInv_holder st clk m l1 p l2 :
  inCS p = true →
  storeInv {| store := st; clock := clk; mu := m;
              threads := l1 ++ p :: l2 |} →
  m = true ∧ csCount l1 = 0 ∧ csCount l2 = 0 ∧
  registerRun (history st ++ pendingOf p) (∅, ∅)
    = Some (kv st, seenWrite st) ∧
  threadTimed clk (history st) p.
Proof.
  intros Hp [Hmu Hreg Hent Hends Hth]. simpl in *.
  destruct (holder_alone _ _ _ _ Hp Hmu) as (Hm & H1 & H2).
  apply Forall_app in Hth as [Hth1 Hth2].
  apply Forall_cons in Hth2 as [Ht Hth2].
  rewrite pendings_middle, (csCount_0_pendings _ H1),
    (csCount_0_pendings _ H2) in Hreg. simpl in Hreg.
  rewrite app_nil_r in Hreg. done.
Qed.

Lemma storeInv_lock st clk l1 p p' l2 :
  inCS p = false → inCS p' = true → pendingOf p' = [] →
  threadTimed clk (history st) p' →
  storeInv {| store := st; clock := clk; mu := false;
              threads := l1 ++ p :: l2 |} →
  storeInv {| store := st; clock := clk; mu := true;
              threads := l1 ++ p' :: l2 |}.
Proof.
  intros Hp Hp' Hpend Ht [Hmu Hreg Hent Hends Hth]. simpl in *.
  rewrite csCount_middle, Hp in Hmu.
  rewrite pendings_middle, (pendingOf_inCS p Hp) in Hreg.
  apply Forall_app in Hth as [Hth1 Hth2].
  apply Forall_cons in Hth2 as [_ Hth2].
  split; simpl; try done.
  - rewrite csCount_middle, Hp'. lia.
  - by rewrite pendings_middle, Hpend.
  - apply Forall_app. split; [done|]. by constructor.
Qed.

Lemma storeInv_unlock st clk m l1 p p' l2 :
  inCS p = true → pendingOf p = [] → inCS p' = false →
  threadTimed clk (history st) p' →
  storeInv {| store := st; clock := clk; mu := m;
              threads := l1 ++ p :: l2 |} →
  storeInv {| store := st; clock := clk; mu := false;
              threads := l1 ++ p' :: l2 |}.
Proof.
  intros Hp Hpend Hp' Ht [Hmu Hreg Hent Hends Hth]. simpl in *.
  destruct (holder_alone _ _ _ m Hp Hmu) as (_ & H1 & H2).
  rewrite pendings_middle, Hpend in Hreg.
  apply Forall_app in Hth as [Hth1 Hth2].
  apply Forall_cons in Hth2 as [_ Hth2].
  split; simpl; try done.
  - rewrite csCount_middle, Hp', H1, H2. done.
  - by rewrite pendings_middle, (pendingOf_inCS p' Hp').
  - apply Forall_app. split; [done|]. by constructor.
Qed.

Lemma registerRun_pending hist h h' r :
  RequestID h = RequestID h' → Op h = Op h' → Key h = Key h' →
  Value h = Value h' → Result h = Result h' →
  registerRun (hist ++ [h]) (∅, ∅) = Some r →
  registerRun (hist ++ [h']) (∅, ∅) = Some r.
Proof.
  intros H1 H2 H3 H4 H5. rewrite !registerRun_app.
  destruct (registerRun hist (∅, ∅)) as [r0|]; [|done]. simpl.
  by rewrite (registerStep_times h h' r0 H1 H2 H3 H4 H5).
Qed.

Ltac holder_facts Hinv Hreg :=
  let H := fresh in
  pose proof Hinv as H;
  apply storeInv_holder in H as (-> & _ & _ & Hreg & _); [|reflexivity].

Lemma storeInv_run σ i d σ' :
  storeInv σ → sysStep (Run i d) σ = Some σ' → storeInv σ'.
Proof.
  intros Hinv Hstep.
  destruct σ as [st clk m ths]; simpl in *.
  destruct (ths !! i) as [p|] eqn:Hi; [|done].
  destruct (lookup_split ths i p Hi) as (l1 & l2 & -> & Hins).
  pose proof (time_Now_le d clk) as Hclk.
  pose proof (inv_entries _ Hinv) as Hent.
  pose proof (inv_ends _ Hinv) as Hends. simpl in Hent, Hends.
  assert (threadTimed clk (history st) p) as Hp.
  { pose proof (inv_threads _ Hinv) as Hth. simpl in Hth.
    apply Forall_app in Hth as [_ Hth].
    by apply Forall_cons in Hth as [? _]. }
  destruct p; simpl in Hstep, Hp.
  - (* PutEntry *)
    destruct body as [req|]; [destruct (putInvalid req)|];
      injection Hstep as <-; rewrite Hins;
      (eapply storeInv_outside; [| | | |exact Hinv]); simpl; done.
  - (* PutWantLock *)
    destruct m; [done|]. injection Hstep as <-. rewrite Hins.
    eapply storeInv_lock; [| | | |exact Hinv]; done.
  - (* PutInCS *)
    holder_facts Hinv Hreg. simpl in Hreg. rewrite app_nil_r in Hreg.
    pose proof (registerStep_put req start start st) as Hput.
    pose proof (applyPut_history req st) as Hh.
    destruct (applyPut req st) as [result s1]. simpl in Hput, Hh.
    injection Hstep as <-. rewrite Hins.
    eapply storeInv_inside; [| | | | | | |exact Hinv]; simpl;
      rewrite ?Hh; try done.
    by rewrite (registerRun_snoc _ _ _ _ Hreg).
  - (* PutApplied *)
    holder_facts Hinv Hreg. simpl in Hreg.
    injection Hstep as <-. rewrite Hins.
    eapply storeInv_inside; [| | | | | | |exact Hinv]; simpl; try done.
    + eapply registerRun_pending; [..|exact Hreg]; done.
    + by eapply entries_clock.
    + split; [lia|]. eapply Forall_impl; [exact Hent|]. simpl. intros h. lia.
  - (* PutStamped *)
    holder_facts Hinv Hreg. simpl in Hreg.
    destruct Hp as [Hse Hle].
    injection Hstep as <-. rewrite Hins.
    eapply storeInv_inside; [| | | | | | |exact Hinv]; simpl; try done.
    + by rewrite app_nil_r.
    + apply Forall_app. split; [done|]. constructor; [|constructor].
      simpl. lia.
    + by apply ends_snoc.
  - (* PutLogged *)
    injection Hstep as <-. rewrite Hins.
    eapply storeInv_unlock; [| | | |exact Hinv]; done.
  - (* GetEntry *)
    destruct (String.eqb key ""); injection Hstep as <-; rewrite Hins;
      (eapply storeInv_outside; [| | | |exact Hinv]); simpl; done.
  - (* GetWantLock *)
    destruct m; [done|]. injection Hstep as <-. rewrite Hins.
    eapply storeInv_lock; [| | | |exact Hinv]; done.
  - (* GetInCS *)
    holder_facts Hinv Hreg. simpl in Hreg. rewrite app_nil_r in Hreg.
    pose proof (registerStep_get key reqID start start (kv st) (seenWrite st))
      as Hget.
    destruct (kvLookup (kv st) key) as [value ok]. simpl in Hget.
    injection Hstep as <-. rewrite Hins.
    eapply storeInv_inside; [| | | | | | |exact Hinv]; simpl; try done.
    by rewrite (registerRun_snoc _ _ _ _ Hreg).
  - (* GetLooked *)
    holder_facts Hinv Hreg. simpl in Hreg.
    injection Hstep as <-. rewrite Hins.
    eapply storeInv_inside; [| | | | | | |exact Hinv]; simpl; try done.
    + eapply registerRun_pending; [..|exact Hreg]; done.
    + by eapply entries_clock.
    + split; [lia|]. eapply Forall_impl; [exact Hent|]. simpl. intros h. lia.
  - (* GetStamped *)
    holder_facts Hinv Hreg. simpl in Hreg.
    destruct Hp as [Hse Hle].
    injection Hstep as <-. rewrite Hins.
    eapply storeInv_inside; [| | | | | | |exact Hinv]; simpl; try done.
    + by rewrite app_nil_r.
    + apply Forall_app. split; [done|]. constructor; [|constructor].
      simpl. lia.
    + by apply ends_snoc.
  - (* GetLogged *)
    injection Hstep as <-. rewrite Hins.
    eapply storeInv_unlock; [| | | |exact Hinv]; done.
  - done.
Qed.

Lemma storeInv_step e σ σ' :
  storeInv σ → sysStep e σ = Some σ' → storeInv σ'.
Proof.
  destruct e as [body|key reqID|i d]; simpl.
  - intros Hinv [= <-]. by apply storeInv_arrive.
  - intros Hinv [= <-]. by apply storeInv_arrive.
  - apply storeInv_run.
Qed.

Lemma storeInv_runEvents es σ σ' :
  storeInv σ → runEvents es σ = Some σ' → storeInv σ'.
Proof.
  revert σ. induction es as [|e es IH]; intros σ Hinv; simpl.
  - by intros [= <-].
  - destruct (sysStep e σ) as [σ1|] eqn:He; [|done].
    apply IH. by eapply storeInv_step.
Qed.

Lemma storeInv_reachable σ : reachable σ → storeInv σ.
Proof.
  intros (c0 & es & Hrun).
  eapply storeInv_runEvents; [apply storeInv_initial | exact Hrun].
Qed.

Lemma StronglySorted_lookup {A} (R : A → A → Prop) l i j a b :
  StronglySorted R l → i < j → l !! i = Some a → l !! j = Some b → R a b.
Proof.
  intros Hs. revert i j. induction Hs as [|x l Hs IH Hx]; intros i j Hij.
  - done.
  - destruct j as [|j]; [lia|]. destruct i as [|i]; simpl.
    + intros [= ->] Hb. rewrite Forall_forall in Hx. apply Hx.
      by eapply list_elem_of_lookup_2.
    + apply IH. lia.
Qed.

Lemma sysStep_history e σ σ' :
  sysStep e σ = Some σ' →
  history (store σ') = history (store σ) ∨
  ∃ i d p h, e = Run i d ∧ threads σ !! i = Some p ∧ pendingOf p = [h] ∧
             history (store σ') = history (store σ) ++ [h].
Proof.
  destruct e as [body|key reqID|i d]; simpl.
  - intros [= <-]. by left.
  - intros [= <-]. by left.
  - destruct (threads σ !! i) as [p|] eqn:Hi; [|done].
    destruct p; simpl.
    + destruct body as [req|]; [destruct (putInvalid req)|];
        intros [= <-]; by left.
    + destruct (mu σ); [done|]. intros [= <-]. by left.
    + pose proof (applyPut_history req (store σ)) as Hh.
      destruct (applyPut req (store σ)) as [result s1].
      intros [= <-]. by left.
    + intros [= <-]. by left.
    + intros [= <-]. right. by eexists i, d, _, _.
    + intros [= <-]. by left.
    + destruct (String.eqb key ""); intros [= <-]; by left.
    + destruct (mu σ); [done|]. intros [= <-]. by left.
    + destruct (kvLookup (kv (store σ)) key). intros [= <-]. by left.
    + intros [= <-]. by left.
    + intros [= <-]. right. by eexists i, d, _, _.
    + intros [= <-]. by left.
    + done.
Qed.

Lemma runEvents_history_prefix es σ σ' :
  runEvents es σ = Some σ' →
  history (store σ) `prefix_of` history (store σ').
Proof.
  revert σ. induction es as [|e es IH]; intros σ; simpl.
  - by intros [= <-].
  - destruct (sysStep e σ) as [σ1|] eqn:He; [|done]. intros Hrun.
    etrans; [|by apply IH].
    destruct (sysStep_history _ _ _ He) as [->|(_ & _ & _ & h & _ & _ & _ & ->)].
    + done.
    + by apply prefix_app_r.
Qed.

(** C8: in every reachable state every record of the log has
    [Start ≤ End], with [End] a clock reading of the past; a step
    appends at most one record, the one its goroutine had already
    completed (end time included) before the step; and whatever runs
    afterwards, the log of now stays a prefix of the later log. *)
Theorem log_records_timed_and_immutable (σ : System) :
  reachable σ →
  Forall (λ h, (Start h ≤ End_ h)%Z ∧ (End_ h ≤ clock σ)%Z)
         (history (store σ)) ∧
  (∀ e σ', sysStep e σ = Some σ' →
     history (store σ') = history (store σ) ∨
     ∃ i d p h, e = Run i d ∧ threads σ !! i = Some p ∧
                pendingOf p = [h] ∧
                history (store σ') = history (store σ) ++ [h] ∧
                (Start h ≤ End_ h)%Z) ∧
  (∀ es σ', runEvents es σ = Some σ' →
     history (store σ) `prefix_of` history (store σ')).
Proof.
  intros Hr. pose proof (storeInv_reachable σ Hr) as Hinv.
  split; [|split].
  - eapply Forall_impl; [apply (inv_entries _ Hinv)|]. simpl. intros h. lia.
  - intros e σ' He.
    destruct (sysStep_history _ _ _ He)
      as [Hh|(i & d & p & h & -> & Hi & Hp & Hh)]; [by left|].
    right. exists i, d, p, h. repeat split; try done.
    pose proof (storeInv_step _ _ _ Hinv He) as Hinv'.
    pose proof (inv_entries _ Hinv') as Hent. rewrite Hh in Hent.
    apply Forall_app in Hent as [_ Hent].
    apply Forall_cons in Hent as [Hent _]. lia.
  - intros es σ'. apply runEvents_history_prefix.
Qed.

Lemma demoState_reachable : reachable demoState.
Proof. exists 0%Z, demoEvents. vm_compute. reflexivity. Qed.

Lemma log_records_timed_and_immutable_witness :
  Forall (λ h, (Start h ≤ End_ h)%Z ∧ (End_ h ≤ clock demoState)%Z)
         (history (store demoState)) ∧
  (∀ e σ', sysStep e demoState = Some σ' →
     history (store σ') = history (store demoState) ∨
     ∃ i d p h, e = Run i d ∧ threads demoState !! i = Some p ∧
                pendingOf p = [h] ∧
                history (store σ') = history (store demoState) ++ [h] ∧
                (Start h ≤ End_ h)%Z) ∧
  (∀ es σ', runEvents es demoState = Some σ' →
     history (store demoState) `prefix_of` history (store σ')).
Proof.
  apply (log_records_timed_and_immutable demoState).
  exists 0%Z, demoEvents. vm_compute. reflexivity.
Defined.

Lemma csCount_exclusive l (m : bool) i j p q :
  csCount l = (if m then 1 else 0) →
  l !! i = Some p → l !! j = Some q →
  inCS p = true → inCS q = true → i = j ∧ m = true.
Proof.
  intros Hc Hi Hj Hp Hq.
  destruct (list_elem_of_split_length _ _ _ Hi) as (l1 & l2 & -> & ->).
  destruct (holder_alone _ _ _ m Hp Hc) as (-> & H1 & H2).
  split; [|done].
  apply csCount_0_outside in H1, H2.
  destruct (decide (j < length l1)) as [Hlt|Hge].
  - rewrite lookup_app_l in Hj by done.
    rewrite Forall_lookup in H1. specialize (H1 _ _ Hj). congruence.
  - destruct (decide (j = length l1)) as [->|Hne]; [done|].
    rewrite lookup_app_r in Hj by lia.
    destruct (j - length l1) as [|k] eqn:Hk; [lia|]. simpl in Hj.
    rewrite Forall_lookup in H2. specialize (H2 _ _ Hj). congruence.
Qed.

Lemma stepThread_store_change d p st clk m p' st' clk' m' :
  stepThread d p st clk m = Some (p', st', clk', m') →
  st' ≠ st → inCS p = true.
Proof.
  destruct p; simpl; try done.
  - destruct body as [req|]; [destruct (putInvalid req)|];
      intros [= <- <- <- <-]; done.
  - destruct m; [done|]. intros [= <- <- <- <-]; done.
  - destruct (String.eqb key ""); intros [= <- <- <- <-]; done.
  - destruct m; [done|]. intros [= <- <- <- <-]; done.
Qed.

(** *** The log as a linearization *)

Lemma registerRun_split pre h post r r' :
  registerRun (pre ++ h :: post) r = Some r' →
  ∃ r1 r2, registerRun pre r = Some r1 ∧ registerStep h r1 = Some r2.
Proof.
  rewrite registerRun_app.
  destruct (registerRun pre r) as [r1|]; [|done]. simpl.
  destruct (registerStep h r1) as [r2|] eqn:Hstep; [|done].
  intros _. by exists r1, r2.
Qed.

Lemma lastOkPut_cons key h l :
  lastOkPut key (h :: l) =
  match lastOkPut key l with
  | Some v => Some v
  | None =>
    if decide (Op h = "PUT" ∧ Result h = "ok" ∧ Key h = key)
    then Some (Value h) else None
  end.
Proof.
  unfold lastOkPut. rewrite filter_cons.
  destruct (decide (Op h = "PUT" ∧ Result h = "ok" ∧ Key h = key)).
  - simpl. apply last_cons.
  - by destruct (last _).
Qed.

Lemma registerStep_lookup h r r' key :
  registerStep h r = Some r' →
  r'.1 !! key =
  if decide (Op h = "PUT" ∧ Result h = "ok" ∧ Key h = key)
  then Some (Value h) else r.1 !! key.
Proof.
  unfold registerStep. intros Hstep.
  destruct (String.eqb_spec (Op h) "PUT") as [Hop|Hop].
  - case_bool_decide as Hin.
    + destruct (String.eqb_spec (Result h) "duplicate") as [Hres|]; [|done].
      injection Hstep as <-. rewrite decide_False; [done|].
      intros (_ & Hok & _). congruence.
    + destruct (String.eqb_spec (Result h) "ok") as [Hres|]; [|done].
      injection Hstep as <-. simpl.
      destruct (decide (Key h = key)) as [<-|Hk].
      * rewrite lookup_insert_eq. by rewrite decide_True.
      * rewrite lookup_insert_ne by done. rewrite decide_False; [done|].
        by intros (_ & _ & ?).
  - rewrite decide_False by (by intros (? & _)).
    destruct (String.eqb (Op h) "GET"); [|done].
    destruct (r.1 !! Key h).
    + by destruct (String.eqb (Result h) "ok" && String.eqb (Value h) s);
        [injection Hstep as <-|].
    + by destruct (String.eqb (Result h) "not_found"); [injection Hstep as <-|].
Qed.

Lemma registerRun_lookup l r r' key :
  registerRun l r = Some r' →
  r'.1 !! key =
  match lastOkPut key l with Some v => Some v | None => r.1 !! key end.
Proof.
  revert r. induction l as [|h l IH]; intros r; simpl.
  - by intros [= <-].
  - destruct (registerStep h r) as [r1|] eqn:Hstep; [|done]. intros Hrun.
    rewrite (IH _ Hrun), lastOkPut_cons.
    destruct (lastOkPut key l); [done|].
    rewrite (registerStep_lookup _ _ _ key Hstep).
    by destruct (decide (Op h = "PUT" ∧ Result h = "ok" ∧ Key h = key)).
Qed.

(** A log that replays on the register has legal reads. *)
Lemma registerRun_readsLegal l r :
  registerRun l (∅, ∅) = Some r → readsLegal l.
Proof.
  intros Hrun pre g post -> Hop.
  destruct (registerRun_split _ _ _ _ _ Hrun) as (r1 & r2 & Hpre & Hstep).
  pose proof (registerRun_lookup _ _ _ (Key g) Hpre) as Hl. simpl in Hl.
  rewrite lookup_empty in Hl.
  unfold registerStep in Hstep. rewrite Hop in Hstep. simpl in Hstep.
  destruct (lastOkPut (Key g) pre) as [v|]; rewrite Hl in Hstep.
  - destruct (String.eqb_spec (Result g) "ok"); [|done].
    destruct (String.eqb_spec (Value g) v); [|done]. done.
  - by destruct (String.eqb_spec (Result g) "not_found").
Qed.

(** A goroutine outside the critical section neither reads nor writes
    the store: its step is the same whatever the store holds, and
    leaves the store as it is. *)
Lemma stepThread_outside_blind d p st1 st2 clk m :
  inCS p = false →
  match stepThread d p st1 clk m, stepThread d p st2 clk m with
  | Some (p1, s1, c1, m1), Some (p2, s2, c2, m2) =>
    p1 = p2 ∧ c1 = c2 ∧ m1 = m2 ∧ s1 = st1 ∧ s2 = st2
  | None, None => True
  | _, _ => False
  end.
Proof.
  destruct p; simpl; try done.
  - intros _. destruct body as [req|]; [destruct (putInvalid req)|]; done.
  - intros _. by destruct m.
  - intros _. by destruct (String.eqb key "").
  - intros _. by destruct m.
Qed.

(** C9, as the code has it: in every reachable state of the
    interleaved goroutines, at most one goroutine is between [Lock] and
    [Unlock], and then the mutex is held; a step that changes the store
    (map, dedup set or log) is a step of that goroutine, and a
    goroutine outside the critical section steps without reading the
    store; and the log, read in append order, which is the order of the
    critical sections, is a legal sequential execution of the register
    that ends in the store's own state when the mutex is free, and is a
    linearization of itself with respect to real-time precedence read
    strictly (a record ended before the other started).  With
    precedence as the spec defines it (ended at or before the start),
    a record is placed before one that precedes it only if it took no
    time and both ended at one and the same clock reading. *)
Theorem store_execution_linearizable (σ : System) :
  reachable σ →
  (∀ i j p q, threads σ !! i = Some p → threads σ !! j = Some q →
     inCS p = true → inCS q = true → i = j ∧ mu σ = true) ∧
  (∀ i d σ', sysStep (Run i d) σ = Some σ' → store σ' ≠ store σ →
     ∃ p, threads σ !! i = Some p ∧ inCS p = true) ∧
  (∀ i p d st, threads σ !! i = Some p → inCS p = false →
     fmap (λ r, (r.1.1.1, r.1.2, r.2)) (stepThread d p st (clock σ) (mu σ))
     = fmap (λ r, (r.1.1.1, r.1.2, r.2))
         (stepThread d p (store σ) (clock σ) (mu σ))) ∧
  (∃ r, sequentialFrom (history (store σ)) r ∧
        (mu σ = false → r = (kv (store σ), seenWrite (store σ)))) ∧
  linearization strictlyPrecedes (history (store σ)) (history (store σ)) ∧
  (∀ i j a b, i < j → history (store σ) !! i = Some a →
     history (store σ) !! j = Some b → precedes b a →
     Start a = End_ a ∧ End_ a = End_ b).
Proof.
  intros Hr. pose proof (storeInv_reachable σ Hr) as Hinv.
  assert (∃ r, registerRun (history (store σ)) (∅, ∅) = Some r ∧
               (mu σ = false → r = (kv (store σ), seenWrite (store σ))))
    as (r & Hrun & Hfree).
  { pose proof (inv_register _ Hinv) as Hreg.
    rewrite registerRun_app in Hreg.
    destruct (registerRun (history (store σ)) (∅, ∅)) as [r|]; [|done].
    exists r. split; [done|]. intros Hm.
    pose proof (inv_mutex _ Hinv) as Hmu. rewrite Hm in Hmu.
    rewrite (csCount_0_pendings _ Hmu) in Hreg. simpl in Hreg. congruence. }
  split; [|split; [|split; [|split; [|split]]]].
  - intros i j p q Hi Hj Hp Hq.
    by eapply csCount_exclusive; [apply (inv_mutex _ Hinv)|..].
  - intros i d σ'. simpl.
    destruct (threads σ !! i) as [p|] eqn:Hi; [|done].
    destruct (stepThread d p (store σ) (clock σ) (mu σ))
      as [[[[p' st'] clk'] m']|] eqn:Hs; [|done].
    intros [= <-] Hne. simpl in Hne. exists p. split; [done|].
    by eapply stepThread_store_change.
  - intros i p d st _ Hp.
    pose proof (stepThread_outside_blind d p st (store σ) (clock σ) (mu σ) Hp)
      as Hb.
    destruct (stepThread d p st (clock σ) (mu σ)) as [[[[p1 s1] c1] m1]|],
      (stepThread d p (store σ) (clock σ) (mu σ)) as [[[[p2 s2] c2] m2]|];
      try done.
    destruct Hb as (-> & -> & -> & _). done.
  - by exists r.
  - split; [done|]. split; [|by eapply registerRun_readsLegal].
    intros i j a b Hij Ha Hb. unfold strictlyPrecedes.
    pose proof (StronglySorted_lookup _ _ _ _ _ _ (inv_ends _ Hinv) Hij Ha Hb)
      as Hab. simpl in Hab.
    pose proof (inv_entries _ Hinv) as Hent.
    rewrite Forall_lookup in Hent. specialize (Hent _ _ Ha). simpl in Hent.
    lia.
  - intros i j a b Hij Ha Hb Hle. unfold precedes in Hle.
    pose proof (StronglySorted_lookup _ _ _ _ _ _ (inv_ends _ Hinv) Hij Ha Hb)
      as Hab. simpl in Hab.
    pose proof (inv_entries _ Hinv) as Hent.
    rewrite Forall_lookup in Hent. specialize (Hent _ _ Ha). simpl in Hent.
    lia.
Qed.

Lemma store_execution_linearizable_witness :
  (∀ i j p q, threads tieState !! i = Some p →
     threads tieState !! j = Some q →
     inCS p = true → inCS q = true → i = j ∧ mu tieState = true) ∧
  (∀ i d σ', sysStep (Run i d) tieState = Some σ' →
     store σ' ≠ store tieState →
     ∃ p, threads tieState !! i = Some p ∧ inCS p = true) ∧
  (∀ i p d st, threads tieState !! i = Some p → inCS p = false →
     fmap (λ r, (r.1.1.1, r.1.2, r.2))
       (stepThread d p st (clock tieState) (mu tieState))
     = fmap (λ r, (r.1.1.1, r.1.2, r.2))
         (stepThread d p (store tieState) (clock tieState)
            (mu tieState))) ∧
  (∃ r, sequentialFrom (history (store tieState)) r ∧
        (mu tieState = false →
         r = (kv (store tieState), seenWrite (store tieState)))) ∧
  linearization strictlyPrecedes (history (store tieState))
    (history (store tieState)) ∧
  (∀ i j a b, i < j → history (store tieState) !! i = Some a →
     history (store tieState) !! j = Some b → precedes b a →
     Start a = End_ a ∧ End_ a = End_ b).
Proof.
  apply (store_execution_linearizable tieState).
  exists 0%Z, tieEvents. vm_compute. reflexivity.
Defined.

(** C9 fails as stated, with precedence as the spec defines it: in the
    run [tieEvents] the [Get] starts at the clock reading at which the
    [Put] later ends, and goes through the critical section first.  The
    log has the [Get], which found nothing, before the [Put] that
    precedes it; and no order of the two records is a linearization,
    since the [Put] has to come first and then the [Get] cannot have
    found nothing. *)
Lemma tie_log_not_linearizable :
  reachable tieState ∧
  history (store tieState)
    = [getEntry "k" "" "" false 2 2;
       putEntry (mkPutRequest "1" "k" "x") "ok" 1 2] ∧
  ¬ respectsRealTime precedes (history (store tieState)) ∧
  ∀ L, ¬ linearization precedes (history (store tieState)) L.
Proof.
  assert (history (store tieState)
            = [getEntry "k" "" "" false 2 2;
               putEntry (mkPutRequest "1" "k" "x") "ok" 1 2]) as Hh
    by (by vm_compute).
  assert (∀ L a b, L !! 0 = Some a → L !! 1 = Some b →
            a = getEntry "k" "" "" false 2 2 →
            b = putEntry (mkPutRequest "1" "k" "x") "ok" 1 2 →
            ¬ respectsRealTime precedes L) as Hbad.
  { intros L a b Ha Hb -> -> Hrt.
    apply (Hrt 0 1 _ _ ltac:(lia) Ha Hb). unfold precedes. simpl. lia. }
  split; [exists 0%Z, tieEvents; by vm_compute|].
  split; [exact Hh|].
  revert Hh. generalize (history (store tieState)). intros hist ->.
  split.
  - eapply Hbad; reflexivity.
  - intros L (Hperm & Hrt & Hlegal). symmetry in Hperm.
    apply Permutation_length_2_inv in Hperm as [HL|HL]; subst L.
    + eapply Hbad; [..|exact Hrt]; reflexivity.
    + specialize (Hlegal [putEntry (mkPutRequest "1" "k" "x") "ok" 1 2]
                    (getEntry "k" "" "" false 2 2) [] eq_refl eq_refl).
      vm_compute in Hlegal. by destruct Hlegal.
Qed.

(** *** Retries under interleaving *)

Lemma sysStep_seen_mono e σ σ' :
  sysStep e σ = Some σ' → seenWrite (store σ) ⊆ seenWrite (store σ').
Proof.
  destruct e as [body|key reqID|i d]; simpl.
  - by intros [= <-].
  - by intros [= <-].
  - destruct (threads σ !! i) as [p|] eqn:Hi; [|done].
    destruct (stepThread d p (store σ) (clock σ) (mu σ))
      as [[[[p' st'] clk'] m']|] eqn:Hs; [|done].
    intros [= <-]. simpl.
    destruct p; simpl in Hs; try done.
    + destruct body as [req|]; [destruct (putInvalid req)|];
        injection Hs as <- <- <- <-; done.
    + destruct (mu σ); [done|]. injection Hs as <- <- <- <-. done.
    + pose proof (applyPut_seen_mono req (store σ)) as Hm.
      destruct (applyPut req (store σ)) as [result s1].
      injection Hs as <- <- <- <-. done.
    + injection Hs as <- <- <- <-. done.
    + injection Hs as <- <- <- <-. done.
    + injection Hs as <- <- <- <-. done.
    + destruct (String.eqb key ""); injection Hs as <- <- <- <-; done.
    + destruct (mu σ); [done|]. injection Hs as <- <- <- <-. done.
    + destruct (kvLookup (kv (store σ)) key).
      injection Hs as <- <- <- <-. done.
    + injection Hs as <- <- <- <-. done.
    + injection Hs as <- <- <- <-. done.
    + injection Hs as <- <- <- <-. done.
Qed.

Lemma runEvents_seen_mono es σ σ' :
  runEvents es σ = Some σ' → seenWrite (store σ) ⊆ seenWrite (store σ').
Proof.
  revert σ. induction es as [|e es IH]; intros σ; simpl.
  - by intros [= <-].
  - destruct (sysStep e σ) as [σ1|] eqn:He; [|done]. intros Hrun.
    etrans; [by eapply sysStep_seen_mono | by apply IH].
Qed.

(** Once a request identifier is in the dedup set, whatever the
    goroutines do afterwards, a [Put] with that identifier that gets to
    the test inside the critical section answers Duplicate and leaves
    the store as it is. *)
Lemma retry_duplicate_interleaved es σ σ' req start d :
  req_RequestID req ∈ seenWrite (store σ) →
  runEvents es σ = Some σ' →
  stepThread d (PutInCS req start) (store σ') (clock σ') (mu σ')
  = Some (PutApplied req start "duplicate", store σ', clock σ', mu σ').
Proof.
  intros Hin Hrun. simpl.
  pose proof (runEvents_seen_mono _ _ _ Hrun) as Hm.
  rewrite applyPut_seen; [done|]. set_solver.
Qed.

(** *** A handler run alone is the goroutine run without interruption *)

Lemma runEvents_last l p d st clk m p' st' clk' m' es :
  stepThread d p st clk m = Some (p', st', clk', m') →
  runEvents (Run (length l) d :: es)
    {| store := st; clock := clk; mu := m; threads := l ++ [p] |}
  = runEvents es
      {| store := st'; clock := clk'; mu := m'; threads := l ++ [p'] |}.
Proof.
  intros Hs. simpl. rewrite list_lookup_middle by done. rewrite Hs.
  replace (length l) with (length l + 0) by lia.
  by rewrite insert_app_r.
Qed.

Lemma runEvents_arrivePut body es st clk m ths :
  runEvents (ArrivePut body :: es)
    {| store := st; clock := clk; mu := m; threads := ths |}
  = runEvents es
      {| store := st; clock := clk; mu := m;
         threads := ths ++ [PutEntry body] |}.
Proof. done. Qed.

Lemma runEvents_arriveGet key reqID es st clk m ths :
  runEvents (ArriveGet key reqID :: es)
    {| store := st; clock := clk; mu := m; threads := ths |}
  = runEvents es
      {| store := st; clock := clk; mu := m;
         threads := ths ++ [GetEntry key reqID] |}.
Proof. done. Qed.

Lemma handlePut_goroutine body d1 d2 st clk ths :
  ∃ es,
    runEvents (ArrivePut body :: es)
      {| store := st; clock := clk; mu := false; threads := ths |}
    = Some {| store := (handlePut body d1 d2 clk st).2;
              clock := (handlePut body d1 d2 clk st).1.2;
              mu := false;
              threads := ths ++ [Done (handlePut body d1 d2 clk st).1.1] |}.
Proof.
  pose (i := length ths). unfold handlePut.
  destruct body as [req|]; [destruct (putInvalid req) eqn:Hv|].
  - exists [Run i d1]. subst i; rewrite runEvents_arrivePut.
    erewrite runEvents_last; [done|]. simpl. by rewrite Hv.
  - exists [Run i d1; Run i 0%N; Run i 0%N; Run i d2; Run i 0%N; Run i 0%N].
    subst i; rewrite runEvents_arrivePut.
    erewrite runEvents_last; [|simpl; by rewrite Hv].
    erewrite runEvents_last; [|done].
    destruct (applyPut req st) as [result s1] eqn:Hap.
    erewrite runEvents_last; [|simpl; by rewrite Hap].
    erewrite runEvents_last; [|done].
    erewrite runEvents_last; [|done].
    erewrite runEvents_last; [|done].
    done.
  - exists [Run i d1]. subst i; rewrite runEvents_arrivePut.
    erewrite runEvents_last; [done|]. done.
Qed.

Lemma handleGet_goroutine key reqID d1 d2 st clk ths :
  ∃ es,
    runEvents (ArriveGet key reqID :: es)
      {| store := st; clock := clk; mu := false; threads := ths |}
    = Some {| store := (handleGet key reqID d1 d2 clk st).2;
              clock := (handleGet key reqID d1 d2 clk st).1.2;
              mu := false;
              threads :=
                ths ++ [Done (handleGet key reqID d1 d2 clk st).1.1] |}.
Proof.
  pose (i := length ths). unfold handleGet.
  destruct (String.eqb key "") eqn:Hk.
  - exists [Run i d1]. subst i; rewrite runEvents_arriveGet.
    erewrite runEvents_last; [done|]. simpl. by rewrite Hk.
  - exists [Run i d1; Run i 0%N; Run i 0%N; Run i d2; Run i 0%N; Run i 0%N].
    subst i; rewrite runEvents_arriveGet.
    erewrite runEvents_last; [|simpl; by rewrite Hk].
    erewrite runEvents_last; [|done].
    destruct (kvLookup (kv st) key) as [value ok] eqn:Hl.
    erewrite runEvents_last; [|simpl; by rewrite Hl].
    erewrite runEvents_last; [|done].
    erewrite runEvents_last; [|done].
    erewrite runEvents_last; [|done].
    done.
Qed.

(** ** The checker *)

Lemma groupBy_snoc f ops op :
  groupBy f (ops ++ [op]) =
  <[f op := default [] (groupBy f ops !! f op) ++ [op]]> (groupBy f ops).
Proof. unfold groupBy. by rewrite fold_left_app. Qed.

(** The slice a grouping map holds for [k]: the operations with [f op = k],
    in their order; no entry when there is none. *)
Lemma groupBy_lookup f ops k :
  groupBy f ops !! k =
  match filter (λ o, f o = k) ops with
  | [] => None
  | l => Some l
  end.
Proof.
  induction ops as [|op ops IH] using rev_ind; [done|].
  rewrite groupBy_snoc, filter_app.
  destruct (decide (f op = k)) as [<-|Hne].
  - rewrite lookup_insert_eq, IH.
    rewrite (filter_cons_True _ op []) by done.
    rewrite filter_nil.
    by destruct (filter (λ o, f o = f op) ops).
  - rewrite lookup_insert_ne by done. rewrite IH.
    rewrite (filter_cons_False _ op []) by done.
    by rewrite filter_nil, app_nil_r.
Qed.

Lemma groupBy_lookup_elem f ops o :
  o ∈ ops → groupBy f ops !! f o = Some (filter (λ o', f o' = f o) ops).
Proof.
  intros Ho. rewrite groupBy_lookup.
  assert (o ∈ filter (λ o', f o' = f o) ops) as Hin
    by (by apply list_elem_of_filter).
  destruct (filter (λ o', f o' = f o) ops); [|done].
  by apply not_elem_of_nil in Hin.
Qed.

Lemma groupBy_lookup_Some f ops k l :
  groupBy f ops !! k = Some l → l = filter (λ o, f o = k) ops.
Proof.
  rewrite groupBy_lookup. destruct (filter (λ o, f o = k) ops); congruence.
Qed.

Lemma startBefore_strictWeak : strictWeak startBefore.
Proof.
  unfold startBefore, Before. split.
  - intros a b. rewrite Z.ltb_lt, Z.ltb_ge. lia.
  - intros a b c. rewrite !Z.ltb_ge. lia.
Qed.

Section CheckerFacts.
Context `{SliceSorter}.

Lemma sorted_elem l o : o ∈ sortSlice startBefore l ↔ o ∈ l.
Proof. by rewrite (sortSlice_perm startBefore l). Qed.

(** In the sorted slice nothing starts strictly before an operation
    placed ahead of it. *)
Lemma sorted_split l pre o post :
  sortSlice startBefore l = pre ++ o :: post →
  Forall (λ a, (op_Start a ≤ op_Start o)%Z) pre ∧
  Forall (λ b, (op_Start o ≤ op_Start b)%Z) post.
Proof.
  intros Hl.
  pose proof (sortSlice_sorted startBefore l startBefore_strictWeak) as Hs.
  rewrite Hl in Hs. apply StronglySorted_app in Hs as (Hc & _ & Hs).
  apply StronglySorted_inv in Hs as [_ Hpost].
  split.
  - apply Forall_forall. intros a Ha.
    specialize (Hc a o Ha ltac:(left)). simpl in Hc.
    unfold startBefore, Before in Hc. by apply Z.ltb_ge in Hc.
  - eapply Forall_impl; [exact Hpost|]. simpl. intros b Hb.
    unfold startBefore, Before in Hb. by apply Z.ltb_ge in Hb.
Qed.
End CheckerFacts.

Lemma keyLoop_unexplained key all latest pre g post :
  op_Op g = "GET" → op_Result g = "ok" →
  existsb (explains key g) all = false →
  op_Value g ≠ latest →
  Forall (λ w, op_Op w = "PUT" → op_Result w = "ok" →
               op_Value w ≠ op_Value g) pre →
  keyLoop key all latest (pre ++ g :: post) = false.
Proof.
  intros Hop Hres Hex. revert latest.
  induction pre as [|w pre IH]; intros latest Hl Hpre; simpl.
  - rewrite Hop, Hres. simpl.
    destruct (String.eqb_spec (op_Value g) latest); [done|]. simpl.
    by rewrite Hex.
  - apply Forall_cons in Hpre as [Hw Hpre].
    destruct (String.eqb (op_Op w) "PUT" && String.eqb (op_Result w) "ok")
      eqn:Hput.
    + apply andb_prop in Hput as [H1 H2]. apply String.eqb_eq in H1, H2.
      apply IH; [|done]. intros Heq. by apply (Hw H1 H2).
    + destruct (String.eqb (op_Op w) "GET"); [|by apply IH].
      destruct (String.eqb (op_Result w) "ok" &&
                negb (String.eqb (op_Value w) latest)); [|by apply IH].
      destruct (existsb (explains key w) all); simpl; [by apply IH | done].
Qed.

Lemma toOperation_elem (hist : list HistoryEntry) o :
  o ∈ map toOperation hist → ∃ h, h ∈ hist ∧ o = toOperation h.
Proof.
  intros Ho. apply list_elem_of_In, in_map_iff in Ho as (h & <- & Hh).
  exists h. split; [by apply list_elem_of_In | done].
Qed.

Lemma toOperation_elem_2 (hist : list HistoryEntry) h :
  h ∈ hist → toOperation h ∈ map toOperation hist.
Proof.
  intros Hh. apply list_elem_of_In, in_map. by apply list_elem_of_In.
Qed.

Section CheckerVerdict.
Context `{SliceSorter}.

Lemma checkMonotonicReads_true ops : checkMonotonicReads ops = true.
Proof. done. Qed.

(** What [CheckLinearizability] returns on a history that is not
    empty: the per-key messages, then the read-your-write message if
    that pass fails. *)
Lemma CheckLinearizability_violations hist :
  hist ≠ [] →
  (CheckLinearizability hist).2 =
    keyViolations (map_to_list (groupBy op_Key (map toOperation hist))) ++
    (if checkReadYourWrite (map toOperation hist) then []
     else [rywViolation]).
Proof.
  intros Hne. unfold CheckLinearizability.
  replace (Nat.eqb (length hist) 0) with false
    by (by destruct hist).
  rewrite checkMonotonicReads_true.
  generalize (keyViolations
                (map_to_list (groupBy op_Key (map toOperation hist)))).
  intros vs. destruct (checkReadYourWrite (map toOperation hist)); simpl.
  - by rewrite app_nil_r.
  - done.
Qed.

Lemma CheckLinearizability_verdict hist :
  (CheckLinearizability hist).1 = false ↔ (CheckLinearizability hist).2 ≠ [].
Proof.
  unfold CheckLinearizability.
  destruct (Nat.eqb (length hist) 0); simpl; [done|].
  match goal with |- Nat.eqb (length ?v) 0 = false ↔ _ =>
    destruct v; simpl; [done|] end.
  done.
Qed.

Lemma keyViolations_elem keyOps key ops :
  (key, ops) ∈ keyOps → checkKeyConsistency key ops = false →
  keyViolation key ∈ keyViolations keyOps.
Proof.
  intros Hin Hc. unfold keyViolations.
  apply list_elem_of_In, in_flat_map. exists (key, ops).
  split; [by apply list_elem_of_In|]. simpl. rewrite Hc. simpl. by left.
Qed.
End CheckerVerdict.

Section PerKeyPass.
Context `{SliceSorter}.

(** The per-key pass fails on the slice of [key] once some Ok [Get]
    returns a non-empty value whose every [Put] in the slice starts
    after the [Get] has ended and after the [Get] has started. *)
Lemma checkKeyConsistency_late_write key ops g :
  g ∈ ops → op_Op g = "GET" → op_Result g = "ok" → op_Value g ≠ "" →
  (∀ w, w ∈ ops → op_Op w = "PUT" → op_Value w = op_Value g →
        (op_End g ≤ op_Start w)%Z ∧ (op_Start g < op_Start w)%Z) →
  checkKeyConsistency key ops = false.
Proof.
  intros Hg Hop Hres Hval Hw. unfold checkKeyConsistency.
  assert (g ∈ sortSlice startBefore ops) as Hgs by (by apply sorted_elem).
  apply list_elem_of_split in Hgs as (pre & post & Hsplit).
  destruct (sorted_split _ _ _ _ Hsplit) as [Hpre _].
  rewrite Hsplit at 2. apply keyLoop_unexplained; try done.
  - apply not_true_is_false. intros Hex.
    apply existsb_exists in Hex as (w & Hin & Hex).
    apply list_elem_of_In in Hin. apply (proj1 (sorted_elem _ _)) in Hin.
    unfold explains in Hex. rewrite !andb_true_iff in Hex.
    destruct Hex as ((((Hput & _) & Hv) & Hb) & _).
    apply String.eqb_eq in Hput, Hv.
    destruct (Hw w Hin Hput Hv) as [Hle _].
    unfold Before in Hb. apply Z.ltb_lt in Hb. lia.
  - apply Forall_forall. intros w Hin Hput _ Hv.
    assert (w ∈ ops) as Hwo.
    { apply sorted_elem. rewrite Hsplit. apply elem_of_app. by left. }
    destruct (Hw w Hwo Hput Hv) as [_ Hlt].
    rewrite Forall_forall in Hpre. specialize (Hpre w Hin). simpl in Hpre.
    lia.
Qed.

(** C3, as the code has it: if some Ok [Get] to key [k] returns a
    non-empty value, and every [Put] of that value to [k] in the
    history starts no earlier than the [Get] ends and strictly after
    the [Get] starts, then [CheckLinearizability] answers false and
    its messages include the one naming [k]. *)
Theorem late_write_violation_reported (hist : list HistoryEntry)
  (g : HistoryEntry) :
  g ∈ hist → Op g = "GET" → Result g = "ok" → Value g ≠ "" →
  (∀ w, w ∈ hist → Op w = "PUT" → Key w = Key g → Value w = Value g →
        (End_ g ≤ Start w)%Z ∧ (Start g < Start w)%Z) →
  (CheckLinearizability hist).1 = false ∧
  keyViolation (Key g) ∈ (CheckLinearizability hist).2.
Proof.
  intros Hg Hop Hres Hval Hw.
  assert (keyViolation (Key g) ∈ (CheckLinearizability hist).2) as Hin.
  { rewrite CheckLinearizability_violations
      by (intros ->; by apply not_elem_of_nil in Hg).
    apply elem_of_app. left.
    pose proof (toOperation_elem_2 _ _ Hg) as Hog.
    eapply keyViolations_elem.
    - apply elem_of_map_to_list.
      apply (groupBy_lookup_elem op_Key _ _ Hog).
    - simpl. apply (checkKeyConsistency_late_write _ _ (toOperation g));
        try done.
      + apply list_elem_of_filter. done.
      + intros w Hwin Hput Hv. apply list_elem_of_filter in Hwin as [Hk Hwin].
        apply toOperation_elem in Hwin as (h & Hh & ->). simpl in *.
        by apply Hw. }
  split; [|done]. apply CheckLinearizability_verdict.
  intros Hnil. rewrite Hnil in Hin. by apply not_elem_of_nil in Hin.
Qed.
End PerKeyPass.

(** *** The read-your-write pass *)

Lemma putTo_spec key o :
  putTo key o = true ↔ op_Op o = "PUT" ∧ op_Key o = key.
Proof. unfold putTo. by rewrite andb_true_iff, !String.eqb_eq. Qed.

(** The scan returns the value of the nearest [Put] to the key. *)
Lemma lastWriteOf_nearest key l1 p l2 :
  Forall (λ q, putTo key q = false) l1 → putTo key p = true →
  lastWriteOf key (l1 ++ p :: l2) = op_Value p.
Proof.
  intros Hl1 Hp. induction Hl1 as [|q l1 Hq _ IH]; simpl.
  - unfold putTo in Hp. by rewrite Hp.
  - unfold putTo in Hq. by rewrite Hq.
Qed.

Lemma lastWriteOf_none key l :
  Forall (λ q, putTo key q = false) l → lastWriteOf key l = "".
Proof.
  induction 1 as [|q l Hq _ IH]; simpl; [done|].
  unfold putTo in Hq. by rewrite Hq.
Qed.

Lemma nearest_put key l :
  Forall (λ q, putTo key q = false) l ∨
  ∃ l1 p l2, l = l1 ++ p :: l2 ∧
             Forall (λ q, putTo key q = false) l1 ∧ putTo key p = true.
Proof.
  induction l as [|o l IH]; [by left|].
  destruct (putTo key o) eqn:Ho.
  - right. by exists [], o, l.
  - destruct IH as [Hl|(l1 & p & l2 & -> & Hl1 & Hp)].
    + left. by constructor.
    + right. exists (o :: l1), p, l2. repeat split; [|done]. by constructor.
Qed.

(** The pass over one client's slice fails exactly at a [Get] whose
    value differs from the non-empty result of the backwards scan. *)
Lemma rywLoop_false before rest :
  rywLoop before rest = false ↔
  ∃ pre g post, rest = pre ++ g :: post ∧ op_Op g = "GET" ∧
    lastWriteOf (op_Key g) (rev pre ++ before) ≠ "" ∧
    op_Value g ≠ lastWriteOf (op_Key g) (rev pre ++ before).
Proof.
  revert before. induction rest as [|op rest IH]; intros before; simpl.
  - split; [done|]. intros (pre & g & post & Hl & _). by destruct pre.
  - assert (rywLoop (op :: before) rest = false ↔
            ∃ pre g post, op :: rest = (op :: pre) ++ g :: post ∧
              op_Op g = "GET" ∧
              lastWriteOf (op_Key g) (rev (op :: pre) ++ before) ≠ "" ∧
              op_Value g ≠ lastWriteOf (op_Key g) (rev (op :: pre) ++ before))
      as Hrec.
    { rewrite IH. split; intros (pre & g & post & Hl & Hg & Hw).
      - exists pre, g, post. subst rest. simpl. rewrite <- app_assoc.
        done.
      - exists pre, g, post. simpl in Hl, Hw. rewrite <- app_assoc in Hw.
        simpl in Hw. injection Hl as Hl. done. }
    destruct (String.eqb (op_Op op) "GET") eqn:Hop.
    + apply String.eqb_eq in Hop.
      destruct (String.eqb_spec (lastWriteOf (op_Key op) before) "")
        as [He|Hne]; simpl.
      * rewrite Hrec. split; [by intros (pre & ?); exists (op :: pre)|].
        intros (pre & g & post & Hl & Hg & Hw1 & Hw2).
        destruct pre as [|o pre]; simpl in Hl; injection Hl as <- Hl; subst.
        -- simpl in Hw1. done.
        -- by exists pre, g, post.
      * destruct (String.eqb_spec (op_Value op)
                    (lastWriteOf (op_Key op) before)) as [He2|Hne2]; simpl.
        -- rewrite Hrec. split; [by intros (pre & ?); exists (op :: pre)|].
           intros (pre & g & post & Hl & Hg & Hw1 & Hw2).
           destruct pre as [|o pre]; simpl in Hl; injection Hl as <- Hl; subst.
           ++ simpl in Hw2. done.
           ++ by exists pre, g, post.
        -- split; [|done]. intros _. by exists [], op, rest.
    + apply String.eqb_neq in Hop.
      rewrite Hrec. split; [by intros (pre & ?); exists (op :: pre)|].
      intros (pre & g & post & Hl & Hg & Hw1 & Hw2).
      destruct pre as [|o pre]; simpl in Hl; injection Hl as <- Hl; subst.
      * done.
      * by exists pre, g, post.
Qed.

Lemma forallb_false {A} (f : A → bool) l :
  forallb f l = false ↔ ∃ x, x ∈ l ∧ f x = false.
Proof.
  induction l as [|a l IH]; simpl.
  - split; [done|]. intros (x & Hx & _). by apply not_elem_of_nil in Hx.
  - rewrite andb_false_iff, IH. split.
    + intros [Ha|(x & Hx & Hf)].
      * exists a. split; [left|done].
      * exists x. split; [by right|done].
    + intros (x & Hx & Hf). apply elem_of_cons in Hx as [->|Hx].
      * by left.
      * right. by exists x.
Qed.

Section ReadYourWrite.
Context `{SliceSorter}.

(** The pass fails exactly when it fails on the sorted slice of some
    client. *)
Lemma checkReadYourWrite_false ops :
  checkReadYourWrite ops = false ↔
  ∃ o, o ∈ ops ∧
    rywLoop [] (sortSlice startBefore
                  (filter (λ o', op_ClientID o' = op_ClientID o) ops))
      = false.
Proof.
  unfold checkReadYourWrite. rewrite forallb_false. split.
  - intros ([c cops] & Hin & Hf). simpl in Hf.
    apply elem_of_map_to_list in Hin.
    pose proof (groupBy_lookup_Some _ _ _ _ Hin) as ->.
    rewrite groupBy_lookup in Hin.
    destruct (filter (λ o, op_ClientID o = c) ops) as [|o l] eqn:Hfl;
      [done|].
    assert (o ∈ filter (λ o, op_ClientID o = c) ops) as Ho
      by (rewrite Hfl; left).
    apply list_elem_of_filter in Ho as [<- Ho].
    exists o. split; [done|]. by rewrite Hfl.
  - intros (o & Ho & Hf).
    exists (op_ClientID o, filter (λ o', op_ClientID o' = op_ClientID o) ops).
    split; [|done]. apply elem_of_map_to_list.
    by apply groupBy_lookup_elem.
Qed.
End ReadYourWrite.

Lemma client_starts_NoDup ops c :
  NoDup (map (λ o, (op_ClientID o, op_Start o)) ops) →
  NoDup (map op_Start (filter (λ o, op_ClientID o = c) ops)).
Proof.
  induction ops as [|o ops IH]; simpl; [constructor|].
  intros Hnd. apply NoDup_cons in Hnd as [Hnotin Hnd].
  specialize (IH Hnd).
  destruct (decide (op_ClientID o = c)) as [Hc|Hc].
  - rewrite filter_cons_True by done. simpl. apply NoDup_cons. split; [|done].
    intros Hin. apply Hnotin.
    apply list_elem_of_In, in_map_iff in Hin as (o' & Hs & Hin).
    apply list_elem_of_In, list_elem_of_filter in Hin as [Hc' Hin].
    apply list_elem_of_In, in_map_iff. exists o'.
    split; [by rewrite Hs, Hc, Hc' | by apply list_elem_of_In].
  - by rewrite filter_cons_False.
Qed.

Lemma elem_of_rev {A} (x : A) l : x ∈ rev l ↔ x ∈ l.
Proof. rewrite !list_elem_of_In. symmetry. apply in_rev. Qed.

Section ReadYourWriteOrder.
Context `{SliceSorter}.

(** With pairwise distinct start times the sorted slice is strictly
    increasing in start time. *)
Lemma strict_split l pre o post :
  NoDup (map op_Start l) →
  sortSlice startBefore l = pre ++ o :: post →
  Forall (λ a, (op_Start a < op_Start o)%Z) pre ∧
  Forall (λ b, (op_Start o < op_Start b)%Z) post.
Proof.
  intros Hnd Hl. destruct (sorted_split _ _ _ _ Hl) as [Hpre Hpost].
  assert (NoDup (map op_Start (pre ++ o :: post))) as Hnd'.
  { rewrite <- Hl. by rewrite (sortSlice_perm startBefore l). }
  rewrite map_app in Hnd'. simpl in Hnd'.
  apply NoDup_app in Hnd' as (_ & Hdisj & Hnd').
  apply NoDup_cons in Hnd' as [Hnotin _].
  split; apply Forall_forall.
  - intros a Ha. rewrite Forall_forall in Hpre. specialize (Hpre a Ha).
    simpl in Hpre.
    assert (op_Start a ≠ op_Start o); [|lia].
    intros Heq. apply (Hdisj (op_Start a)).
    + apply list_elem_of_In, in_map. by apply list_elem_of_In.
    + rewrite Heq. left.
  - intros b Hb. rewrite Forall_forall in Hpost. specialize (Hpost b Hb).
    simpl in Hpost.
    assert (op_Start o ≠ op_Start b); [|lia].
    intros Heq. apply Hnotin. rewrite Heq.
    apply list_elem_of_In, in_map. by apply list_elem_of_In.
Qed.

(** A [Get] after a [Put] of the same client to the same key fails
    the pass as soon as none of that client's [Put]s to the key
    carries an empty value or the value the [Get] returns. *)
Lemma ryw_own_put_differs ops g p :
  g ∈ ops → p ∈ ops → op_Op g = "GET" → op_Op p = "PUT" →
  op_ClientID p = op_ClientID g → op_Key p = op_Key g →
  (op_Start p < op_Start g)%Z →
  (∀ q, q ∈ ops → op_Op q = "PUT" → op_ClientID q = op_ClientID g →
        op_Key q = op_Key g → op_Value q ≠ "" ∧ op_Value g ≠ op_Value q) →
  checkReadYourWrite ops = false.
Proof.
  intros Hg Hp Hgop Hpop Hpc Hpk Hlt Hall.
  apply checkReadYourWrite_false. exists g. split; [done|].
  set (cops := filter (λ o', op_ClientID o' = op_ClientID g) ops).
  assert (g ∈ sortSlice startBefore cops) as Hgs.
  { apply sorted_elem, list_elem_of_filter. done. }
  assert (p ∈ sortSlice startBefore cops) as Hps.
  { apply sorted_elem, list_elem_of_filter. done. }
  apply list_elem_of_split in Hgs as (pre & post & Hsplit).
  destruct (sorted_split _ _ _ _ Hsplit) as [Hpre Hpost].
  assert (p ∈ pre) as Hppre.
  { rewrite Hsplit in Hps. apply elem_of_app in Hps as [?|Hps]; [done|].
    apply elem_of_cons in Hps as [->|Hps]; [lia|].
    rewrite Forall_forall in Hpost. specialize (Hpost p Hps).
    simpl in Hpost. lia. }
  apply rywLoop_false. exists pre, g, post.
  split; [done|]. split; [done|]. rewrite app_nil_r.
  destruct (nearest_put (op_Key g) (rev pre))
    as [Hnone|(l1 & q & l2 & Hrev & Hl1 & Hq)].
  - rewrite Forall_forall in Hnone.
    assert (putTo (op_Key g) p = false) as Hf.
    { apply Hnone. by apply elem_of_rev. }
    assert (putTo (op_Key g) p = true) by (by apply putTo_spec).
    congruence.
  - rewrite Hrev, (lastWriteOf_nearest _ _ _ _ Hl1 Hq).
    apply putTo_spec in Hq as [Hqop Hqk].
    assert (q ∈ cops) as Hqc.
    { apply (sorted_elem cops). rewrite Hsplit. apply elem_of_app. left.
      apply elem_of_rev. rewrite Hrev. apply elem_of_app. right. left. }
    apply list_elem_of_filter in Hqc as [Hqcl Hqo].
    destruct (Hall q Hqo Hqop Hqcl Hqk) as [? ?]. done.
Qed.
End ReadYourWriteOrder.

Section ReadYourWriteExact.
Context `{SliceSorter}.

(** What the pass decides when no client has two operations with the
    same start time: it fails exactly when some [Get] returns a value
    other than the non-empty value of the latest-starting [Put] that
    the same client sent to the same key before the [Get] started. *)
Lemma checkReadYourWrite_exact ops :
  NoDup (map (λ o, (op_ClientID o, op_Start o)) ops) →
  checkReadYourWrite ops = false ↔
  ∃ g p, g ∈ ops ∧ p ∈ ops ∧ op_Op g = "GET" ∧ op_Op p = "PUT" ∧
    op_ClientID p = op_ClientID g ∧ op_Key p = op_Key g ∧
    (op_Start p < op_Start g)%Z ∧
    (∀ q, q ∈ ops → op_Op q = "PUT" → op_ClientID q = op_ClientID g →
          op_Key q = op_Key g → (op_Start q < op_Start g)%Z →
          (op_Start q ≤ op_Start p)%Z) ∧
    op_Value p ≠ "" ∧ op_Value g ≠ op_Value p.
Proof.
  intros Hnd. rewrite checkReadYourWrite_false. split.
  - intros (o & Ho & Hf).
    set (cops := filter (λ o', op_ClientID o' = op_ClientID o) ops) in *.
    pose proof (client_starts_NoDup ops (op_ClientID o) Hnd) as Hndc.
    apply rywLoop_false in Hf as (pre & g & post & Hsplit & Hgop & Hw1 & Hw2).
    rewrite app_nil_r in Hw1, Hw2.
    destruct (strict_split _ _ _ _ Hndc Hsplit) as [Hpre Hpost].
    rewrite Forall_forall in Hpre. rewrite Forall_forall in Hpost.
    destruct (nearest_put (op_Key g) (rev pre))
      as [Hnone|(l1 & p & l2 & Hrev & Hl1 & Hp)].
    { by rewrite (lastWriteOf_none _ _ Hnone) in Hw1. }
    rewrite Hrev, (lastWriteOf_nearest _ _ _ _ Hl1 Hp) in Hw1, Hw2.
    assert (pre = rev l2 ++ p :: rev l1) as Hpre_eq.
    { rewrite <- (rev_involutive pre), Hrev, rev_app_distr. simpl.
      by rewrite <- app_assoc. }
    assert (∀ x, x ∈ sortSlice startBefore cops →
                 x ∈ ops ∧ op_ClientID x = op_ClientID o) as Hmem.
    { intros x Hx. apply (sorted_elem cops) in Hx.
      apply list_elem_of_filter in Hx as [? ?]. done. }
    assert (g ∈ sortSlice startBefore cops) as Hgs.
    { rewrite Hsplit. apply elem_of_app. right. left. }
    assert (p ∈ pre) as Hppre.
    { rewrite Hpre_eq. apply elem_of_app. right. left. }
    assert (p ∈ sortSlice startBefore cops) as Hps.
    { rewrite Hsplit. apply elem_of_app. by left. }
    destruct (Hmem g Hgs) as [Hgo Hgc]. destruct (Hmem p Hps) as [Hpo Hpc].
    apply putTo_spec in Hp as [Hpop Hpk].
    exists g, p. repeat split; try done; try congruence.
    + by apply Hpre.
    + intros q Hq Hqop Hqc Hqk Hqlt.
      assert (q ∈ sortSlice startBefore cops) as Hqs.
      { apply sorted_elem, list_elem_of_filter. split; [congruence|done]. }
      rewrite Hsplit in Hqs. apply elem_of_app in Hqs as [Hqs|Hqs].
      * rewrite Hpre_eq in Hqs. apply elem_of_app in Hqs as [Hqs|Hqs].
        -- rewrite Hpre_eq, <- app_assoc in Hsplit. simpl in Hsplit.
           destruct (sorted_split _ _ _ _ Hsplit) as [Hle _].
           rewrite Forall_forall in Hle. by apply Hle.
        -- apply elem_of_cons in Hqs as [->|Hqs]; [lia|].
           apply (proj1 (elem_of_rev _ _)) in Hqs.
           rewrite Forall_forall in Hl1. specialize (Hl1 q Hqs).
           assert (putTo (op_Key g) q = true) by (by apply putTo_spec).
           congruence.
      * apply elem_of_cons in Hqs as [->|Hqs]; [lia|].
        specialize (Hpost q Hqs). simpl in Hpost. lia.
  - intros (g & p & Hg & Hp & Hgop & Hpop & Hpc & Hpk & Hlt & Hmax & Hv1 & Hv2).
    exists g. split; [done|].
    set (cops := filter (λ o', op_ClientID o' = op_ClientID g) ops) in *.
    pose proof (client_starts_NoDup ops (op_ClientID g) Hnd) as Hndc.
    assert (g ∈ sortSlice startBefore cops) as Hgs.
    { apply sorted_elem, list_elem_of_filter. done. }
    assert (p ∈ sortSlice startBefore cops) as Hps.
    { apply sorted_elem, list_elem_of_filter. done. }
    apply list_elem_of_split in Hgs as (pre & post & Hsplit).
    destruct (strict_split _ _ _ _ Hndc Hsplit) as [Hpre Hpost].
    rewrite Forall_forall in Hpre. rewrite Forall_forall in Hpost.
    assert (p ∈ pre) as Hppre.
    { rewrite Hsplit in Hps. apply elem_of_app in Hps as [?|Hps]; [done|].
      apply elem_of_cons in Hps as [->|Hps]; [lia|].
      specialize (Hpost p Hps). simpl in Hpost. lia. }
    apply rywLoop_false. exists pre, g, post.
    split; [done|]. split; [done|]. rewrite app_nil_r.
    assert (putTo (op_Key g) p = true) as Hput by (by apply putTo_spec).
    destruct (nearest_put (op_Key g) (rev pre))
      as [Hnone|(l1 & q & l2 & Hrev & Hl1 & Hq)].
    { rewrite Forall_forall in Hnone.
      specialize (Hnone p (proj2 (elem_of_rev _ _) Hppre)). congruence. }
    rewrite Hrev, (lastWriteOf_nearest _ _ _ _ Hl1 Hq).
    assert (pre = rev l2 ++ q :: rev l1) as Hpre_eq.
    { rewrite <- (rev_involutive pre), Hrev, rev_app_distr. simpl.
      by rewrite <- app_assoc. }
    assert (q ∈ pre) as Hqpre.
    { rewrite Hpre_eq. apply elem_of_app. right. left. }
    assert (q = p) as ->; [|done].
    assert (q ∈ cops) as Hqc.
    { apply (sorted_elem cops). rewrite Hsplit. apply elem_of_app. by left. }
    apply list_elem_of_filter in Hqc as [Hqcl Hqo].
    apply putTo_spec in Hq as [Hqop Hqk].
    pose proof (Hmax q Hqo Hqop Hqcl Hqk (Hpre q Hqpre)) as Hqle.
    rewrite Hpre_eq in Hppre. apply elem_of_app in Hppre as [Hin|Hin].
    + rewrite Hpre_eq, <- app_assoc in Hsplit. simpl in Hsplit.
      destruct (strict_split _ _ _ _ Hndc Hsplit) as [Hlt' _].
      rewrite Forall_forall in Hlt'. specialize (Hlt' p Hin).
      simpl in Hlt'. lia.
    + apply elem_of_cons in Hin as [->|Hin]; [done|].
      apply (proj1 (elem_of_rev _ _)) in Hin.
      rewrite Forall_forall in Hl1. specialize (Hl1 p Hin). congruence.
Qed.
End ReadYourWriteExact.


(** ** The claims about the checker, settled *)

Ltac pick_entry H :=
  repeat (apply elem_of_cons in H as [->|H]);
  [..|by apply not_elem_of_nil in H].

Lemma late_write_violation_reported_witness :
  (@CheckLinearizability goInsertionSort lateWriteHistory).1 = false ∧
  keyViolation "k" ∈ (@CheckLinearizability goInsertionSort lateWriteHistory).2.
Proof.
  apply (@late_write_violation_reported goInsertionSort lateWriteHistory
           (entry "g" "GET" "k" "y" "ok" 1 5)).
  - left.
  - reflexivity.
  - reflexivity.
  - discriminate.
  - intros w Hw Hop _ _. pick_entry Hw; [discriminate|]. simpl. lia.
Defined.

(** C3 fails as stated: the [Get] of ["y"] takes no time, the only
    write of ["y"] starts at that instant, so [Get.end ≤ write.start];
    the sort leaves the write first and the checker reports nothing. *)
Lemma tie_hides_late_write :
  let g := entry "g" "GET" "k" "y" "ok" 5 5 in
  (g ∈ tieHistory ∧ Op g = "GET" ∧ Key g = "k" ∧ Result g = "ok" ∧
   Value g = "y" ∧
   ∀ w, w ∈ tieHistory → Op w = "PUT" → Key w = "k" → Value w = "y" →
        (End_ g ≤ Start w)%Z) ∧
  @CheckLinearizability goInsertionSort tieHistory = (true, []).
Proof.
  split; [|by vm_compute].
  repeat split.
  - right. left.
  - intros w Hw Hop _ _. pick_entry Hw; [|discriminate]. simpl. lia.
Qed.

(** C2: on [staleReadWithRetry] the read of the overwritten ["y"] is
    accepted because the Duplicate [Put] of ["y"] overlaps it; without
    that record the same read is reported.  The first loop of
    [checkKeyConsistency] skips Duplicate [Put]s, the search for an
    overlapping [Put] does not look at the outcome. *)
Theorem duplicate_put_explains_stale_read :
  @CheckLinearizability goInsertionSort staleReadWithRetry = (true, []) ∧
  @CheckLinearizability goInsertionSort
     (filter (λ h, Result h ≠ "duplicate") staleReadWithRetry)
    = (false, [keyViolation "k"]) ∧
  ∀ key op w result,
    explains key op w =
    explains key op
      {| op_ID := op_ID w; op_Op := op_Op w; op_Key := op_Key w;
         op_Value := op_Value w; op_Start := op_Start w; op_End := op_End w;
         op_Result := result; op_ClientID := op_ClientID w |}.
Proof. split; [by vm_compute|]. split; [by vm_compute|]. done. Qed.

Lemma keyViolations_shape `{SliceSorter} keyOps v :
  v ∈ keyViolations keyOps → ∃ key, v = keyViolation key.
Proof.
  unfold keyViolations. intros Hv.
  apply list_elem_of_In, in_flat_map in Hv as ([key ops] & _ & Hv).
  simpl in Hv. destruct (negb (checkKeyConsistency key ops)); [|done].
  destruct Hv as [<-|[]]. by exists key.
Qed.

(** C4: the monotonic-reads pass returns true on every input, so its
    message is never among the violations; on [regressingReads], where
    client ["c"] reads ["new"] and then ["old"] again, only the per-key
    message is reported. *)
Theorem monotonic_reads_never_reported :
  (∀ (S : SliceSorter) hist,
     checkMonotonicReads (map toOperation hist) = true ∧
     monotonicViolation ∉ (CheckLinearizability hist).2) ∧
  @CheckLinearizability goInsertionSort regressingReads
    = (false, [keyViolation "k"]).
Proof.
  split; [|by vm_compute].
  intros S hist. split; [done|].
  destruct hist as [|h hist]; [by apply not_elem_of_nil|].
  rewrite CheckLinearizability_violations by done.
  intros Hin. apply elem_of_app in Hin as [Hin|Hin].
  - apply keyViolations_shape in Hin as (key & Hk). discriminate.
  - destruct (checkReadYourWrite (map toOperation (h :: hist))).
    + by apply not_elem_of_nil in Hin.
    + apply list_elem_of_singleton in Hin. discriminate.
Qed.

Lemma distinctStarts_operations hist :
  distinctStarts hist →
  NoDup (map (λ o, (op_ClientID o, op_Start o)) (map toOperation hist)).
Proof. unfold distinctStarts. by rewrite map_map. Qed.

(** The pass, on a history with distinct start times per client, in
    terms of the records: whatever the outcome of the [Put]. *)
Lemma checkReadYourWrite_records `{SliceSorter} hist :
  distinctStarts hist →
  checkReadYourWrite (map toOperation hist) = false ↔
  ∃ g p, g ∈ hist ∧ p ∈ hist ∧ Op g = "GET" ∧ Op p = "PUT" ∧
    RequestID p = RequestID g ∧ Key p = Key g ∧ (Start p < Start g)%Z ∧
    (∀ q, q ∈ hist → Op q = "PUT" → RequestID q = RequestID g →
          Key q = Key g → (Start q < Start g)%Z → (Start q ≤ Start p)%Z) ∧
    Value p ≠ "" ∧ Value g ≠ Value p.
Proof.
  intros Hd.
  rewrite (checkReadYourWrite_exact _ (distinctStarts_operations _ Hd)).
  split.
  - intros (g' & p' & Hg & Hp & Hrest).
    apply toOperation_elem in Hg as (g & Hg & ->).
    apply toOperation_elem in Hp as (p & Hp & ->). simpl in Hrest.
    destruct Hrest as (? & ? & ? & ? & ? & Hmax & ? & ?).
    exists g, p. repeat split; try done.
    intros q Hq. apply (Hmax (toOperation q)). by apply toOperation_elem_2.
  - intros (g & p & Hg & Hp & ? & ? & ? & ? & ? & Hmax & ? & ?).
    exists (toOperation g), (toOperation p). simpl.
    repeat split; try done; try (by apply toOperation_elem_2).
    intros q' Hq. apply toOperation_elem in Hq as (q & Hq & ->). simpl.
    by apply Hmax.
Qed.

(** C5, as the code has it: on a history whose [Put]s all have outcome
    Ok and in which no client has two records with the same start time,
    the read-your-writes pass fails exactly when some [Get] returns a
    value that differs from the non-empty value of the same client's
    most recent earlier-starting Ok [Put] to the same key. *)
Theorem read_your_write_exact `{SliceSorter} (hist : list HistoryEntry) :
  distinctStarts hist →
  (∀ p, p ∈ hist → Op p = "PUT" → Result p = "ok") →
  checkReadYourWrite (map toOperation hist) = false ↔
  ∃ g p, g ∈ hist ∧ Op g = "GET" ∧ mostRecentOwnOkPut hist g p ∧
         Value p ≠ "" ∧ Value g ≠ Value p.
Proof.
  intros Hd Hok. rewrite (checkReadYourWrite_records hist Hd). split.
  - intros (g & p & Hg & Hp & ? & ? & ? & ? & ? & Hmax & ? & ?).
    exists g, p. repeat split; try done; [by apply Hok|].
    intros q (Hq & ? & ? & ? & ? & ?). by apply Hmax.
  - intros (g & p & Hg & ? & [(Hp & ? & ? & ? & ? & ?) Hmax] & ? & ?).
    exists g, p. repeat split; try done.
    intros q Hq ? ? ? ?. apply Hmax. repeat split; try done. by apply Hok.
Qed.

Lemma read_your_write_exact_witness :
  @checkReadYourWrite goInsertionSort (map toOperation newerRead) = false ↔
  ∃ g p, g ∈ newerRead ∧ Op g = "GET" ∧ mostRecentOwnOkPut newerRead g p ∧
         Value p ≠ "" ∧ Value g ≠ Value p.
Proof.
  apply (@read_your_write_exact goInsertionSort newerRead).
  - unfold distinctStarts. apply (bool_decide_unpack _). vm_compute. exact I.
  - intros p Hp _. pick_entry Hp; reflexivity.
Defined.

(** C5 fails as stated: on [newerRead] the pass fails, although the
    [Get] of client ["A"] returns the value written after ["A"]'s own
    [Put], not an older one. *)
Lemma newer_read_fails_read_your_write :
  @checkReadYourWrite goInsertionSort (map toOperation newerRead) = false ∧
  ¬ staleOwnRead newerRead.
Proof.
  split; [by vm_compute|].
  intros (g & p & Hg & Hgop & [(Hp & Hpop & _ & Hid & _) _] & _ & Hold).
  pick_entry Hg; try discriminate.
  pick_entry Hp; try discriminate.
  destruct Hold as [?|(w & Hw & Hwop & _ & _ & Hv & Hle)]; [discriminate|].
  pick_entry Hw; try discriminate. simpl in Hle. lia.
Qed.

(** C6, as the code has it: a [Get] that found nothing, after an Ok
    [Put] to its key by the same request identifier that started
    strictly before it, makes [CheckLinearizability] answer false with
    the read-your-write message, provided every [Put] of that request
    identifier to the key carries a non-empty value. *)
Theorem not_found_after_own_put_reported `{SliceSorter}
  (hist : list HistoryEntry) (g p : HistoryEntry) :
  g ∈ hist → Op g = "GET" → Result g = "not_found" → Value g = "" →
  p ∈ hist → Op p = "PUT" → Result p = "ok" → Key p = Key g →
  (End_ p ≤ Start g)%Z →
  RequestID p = RequestID g → (Start p < Start g)%Z →
  (∀ q, q ∈ hist → Op q = "PUT" → RequestID q = RequestID g →
        Key q = Key g → Value q ≠ "") →
  (CheckLinearizability hist).1 = false ∧
  rywViolation ∈ (CheckLinearizability hist).2.
Proof.
  intros Hg Hgop _ Hgv Hp Hpop _ Hpk _ Hpid Hlt Hall.
  assert (checkReadYourWrite (map toOperation hist) = false) as Hf.
  { apply (ryw_own_put_differs _ (toOperation g) (toOperation p));
      try done; try (by apply toOperation_elem_2).
    intros q' Hq Hqop Hqc Hqk.
    apply toOperation_elem in Hq as (q & Hq & ->). simpl in *.
    pose proof (Hall q Hq Hqop Hqc Hqk) as Hne. rewrite Hgv.
    split; [done|]. congruence. }
  assert (rywViolation ∈ (CheckLinearizability hist).2) as Hin.
  { rewrite CheckLinearizability_violations
      by (intros ->; by apply not_elem_of_nil in Hg).
    rewrite Hf. apply elem_of_app. right. left. }
  split; [|done]. apply CheckLinearizability_verdict.
  intros Hnil. rewrite Hnil in Hin. by apply not_elem_of_nil in Hin.
Qed.

Lemma not_found_after_own_put_reported_witness :
  (@CheckLinearizability goInsertionSort missedOwnWrite).1 = false ∧
  rywViolation ∈ (@CheckLinearizability goInsertionSort missedOwnWrite).2.
Proof.
  apply (@not_found_after_own_put_reported goInsertionSort missedOwnWrite
           (entry "c" "GET" "k" "" "not_found" 2 3)
           (entry "c" "PUT" "k" "x" "ok" 0 1)).
  - right. left.
  - reflexivity.
  - reflexivity.
  - reflexivity.
  - left.
  - reflexivity.
  - reflexivity.
  - reflexivity.
  - simpl. lia.
  - reflexivity.
  - simpl. lia.
  - intros q Hq Hop _ _. pick_entry Hq; discriminate.
Defined.

(** C6 fails as stated: on [missedWrite] a [Get] finds nothing after an
    Ok [Put] to its key has returned, and the checker reports no
    violation. *)
Lemma not_found_after_put_unreported :
  let p := entry "r1" "PUT" "k" "x" "ok" 0 1 in
  let g := entry "" "GET" "k" "" "not_found" 2 3 in
  (g ∈ missedWrite ∧ Op g = "GET" ∧ Key g = "k" ∧ Result g = "not_found" ∧
   p ∈ missedWrite ∧ Op p = "PUT" ∧ Key p = "k" ∧ Result p = "ok" ∧
   (End_ p ≤ Start g)%Z) ∧
  @CheckLinearizability goInsertionSort missedWrite = (true, []).
Proof.
  split; [|by vm_compute].
  repeat split; try reflexivity.
  - right. left.
  - left.
  - simpl. lia.
Qed.


(** *** Why the conditions above are there *)

(** The read-your-write pass takes the value of a Duplicate [Put] as
    the client's last write: the read of the stored value fails it. *)
Example retry_value_taken_as_last_write :
  @checkReadYourWrite goInsertionSort (map toOperation retryThenRead) = false.
Proof. by vm_compute. Qed.

(** An empty last write switches the comparison off, in the
    read-your-write pass and for a [Get] that finds nothing. *)
Example empty_last_write_not_compared :
  @checkReadYourWrite goInsertionSort (map toOperation emptyOwnWrite) = true ∧
  @CheckLinearizability goInsertionSort emptyThenNotFound = (true, []).
Proof. split; by vm_compute. Qed.


(** * Further properties of the checker *)

Lemma keyLoop_no_ok_get key all latest rest :
  Forall (λ o, ¬ (op_Op o = "GET" ∧ op_Result o = "ok")) rest →
  keyLoop key all latest rest = true.
Proof.
  intros Hrest. revert latest.
  induction Hrest as [|o rest Ho _ IH]; intros latest; simpl; [done|].
  destruct (String.eqb (op_Op o) "PUT" && String.eqb (op_Result o) "ok");
    [apply IH|].
  destruct (String.eqb_spec (op_Op o) "GET") as [Hop|]; [|apply IH].
  destruct (String.eqb_spec (op_Result o) "ok") as [Hres|]; [|apply IH].
  by destruct Ho.
Qed.

Lemma rywLoop_no_get before rest :
  Forall (λ o, op_Op o ≠ "GET") rest → rywLoop before rest = true.
Proof.
  intros Hrest. revert before.
  induction Hrest as [|o rest Ho _ IH]; intros before; simpl; [done|].
  destruct (String.eqb_spec (op_Op o) "GET"); [done|apply IH].
Qed.

Section WritesOnly.
Context `{SliceSorter}.

(** The per-key pass only ever objects to a [Get] with outcome Ok. *)
Lemma checkKeyConsistency_no_ok_get key ops :
  (∀ o, o ∈ ops → ¬ (op_Op o = "GET" ∧ op_Result o = "ok")) →
  checkKeyConsistency key ops = true.
Proof.
  intros Hops. unfold checkKeyConsistency. apply keyLoop_no_ok_get.
  apply Forall_forall. intros o Ho. apply Hops. by apply sorted_elem.
Qed.

Lemma keyViolations_nil keyOps :
  (∀ key ops, (key, ops) ∈ keyOps → checkKeyConsistency key ops = true) →
  keyViolations keyOps = [].
Proof.
  intros Hall. unfold keyViolations.
  induction keyOps as [|[key ops] keyOps IH]; simpl; [done|].
  rewrite (Hall key ops) by left. simpl. apply IH.
  intros key' ops' Hin. apply Hall. by right.
Qed.

(** X1: A history without a single [Get] is reported linearizable with no
    message, whatever its [Put]s are: overlapping, repeated, Duplicate
    or not. *)
Theorem history_without_reads_accepted (hist : list HistoryEntry) :
  (∀ h, h ∈ hist → Op h ≠ "GET") →
  CheckLinearizability hist = (true, []).
Proof.
  intros Hno.
  destruct hist as [|h0 hist0] eqn:Hh; [done|]. rewrite <- Hh in *.
  assert (hist ≠ []) as Hne by (by rewrite Hh).
  assert (∀ o, o ∈ map toOperation hist → op_Op o ≠ "GET") as Hops.
  { intros o Ho. apply toOperation_elem in Ho as (h & Hin & ->). simpl.
    by apply Hno. }
  assert ((CheckLinearizability hist).2 = []) as Hvs.
  { rewrite CheckLinearizability_violations by done.
    rewrite keyViolations_nil; simpl.
    - destruct (checkReadYourWrite (map toOperation hist)) eqn:Hr; [done|].
      apply checkReadYourWrite_false in Hr as (o & _ & Hf).
      rewrite rywLoop_no_get in Hf; [done|].
      apply Forall_forall. intros o' Ho'. apply Hops.
      apply sorted_elem, list_elem_of_filter in Ho' as [_ ?]. done.
    - intros key ops Hin. apply elem_of_map_to_list in Hin.
      apply groupBy_lookup_Some in Hin as ->.
      apply checkKeyConsistency_no_ok_get. intros o Ho [Hop _].
      apply list_elem_of_filter in Ho as [_ Ho]. by apply (Hops o). }
  destruct (CheckLinearizability hist) as [b vs] eqn:Hc. simpl in Hvs.
  subst vs. f_equal.
  destruct b; [done|].
  pose proof (proj1 (CheckLinearizability_verdict hist)) as Hv.
  rewrite Hc in Hv. simpl in Hv. by destruct Hv.
Qed.
End WritesOnly.

Lemma string_length_app (a b : string) :
  String.length (a ++ b)%string = String.length a + String.length b.
Proof. induction a as [|c a IH]; simpl; [done|]. by rewrite IH. Qed.

Lemma string_app_inv_tail (a b s : string) :
  (a ++ s)%string = (b ++ s)%string → a = b.
Proof.
  revert b. induction a as [|c a IH]; intros [|c' b] Heq; simpl in Heq.
  - done.
  - apply (f_equal String.length) in Heq. simpl in Heq.
    rewrite ?string_length_app in Heq. simpl in Heq. lia.
  - apply (f_equal String.length) in Heq. simpl in Heq.
    rewrite ?string_length_app in Heq. simpl in Heq. lia.
  - injection Heq as -> Heq. f_equal. by apply IH.
Qed.

Lemma keyViolation_inj key key' :
  keyViolation key = keyViolation key' → key = key'.
Proof.
  unfold keyViolation. intros Heq.
  apply (string_app_inv_tail ("Key '" ++ key) ("Key '" ++ key')) in Heq.
  by injection Heq.
Qed.

Lemma keyViolation_not_ryw key : keyViolation key ≠ rywViolation.
Proof. discriminate. Qed.

Section Violations.
Context `{SliceSorter}.

Lemma keyViolations_elem_inv keyOps v :
  v ∈ keyViolations keyOps →
  ∃ key ops, (key, ops) ∈ keyOps ∧ checkKeyConsistency key ops = false ∧
             v = keyViolation key.
Proof.
  unfold keyViolations. intros Hv.
  apply list_elem_of_In, in_flat_map in Hv as ([key ops] & Hin & Hv).
  simpl in Hv. destruct (checkKeyConsistency key ops) eqn:Hc; [done|].
  destruct Hv as [<-|[]]. exists key, ops.
  split; [by apply list_elem_of_In|done].
Qed.

Lemma keyViolations_NoDup keyOps :
  NoDup keyOps.*1 → NoDup (keyViolations keyOps).
Proof.
  unfold keyViolations.
  induction keyOps as [|[key ops] keyOps IH]; simpl; [constructor|].
  intros Hnd. apply NoDup_cons in Hnd as [Hnotin Hnd].
  destruct (checkKeyConsistency key ops); simpl; [by apply IH|].
  apply NoDup_cons. split; [|by apply IH].
  intros Hin. apply keyViolations_elem_inv in Hin as (key' & ops' & Hin & _ & Heq).
  apply keyViolation_inj in Heq as <-. apply Hnotin.
  apply list_elem_of_fmap. by exists (key, ops').
Qed.

(** The messages of [CheckLinearizability], characterised. *)
Lemma violations_characterised (hist : list HistoryEntry) :
  let ops := map toOperation hist in
  let vs := (CheckLinearizability hist).2 in
  (∀ key, keyViolation key ∈ vs ↔
     (∃ h, h ∈ hist ∧ Key h = key) ∧
     checkKeyConsistency key (filter (λ o, op_Key o = key) ops) = false) ∧
  (rywViolation ∈ vs ↔ checkReadYourWrite ops = false) ∧
  (∀ v, v ∈ vs → v = rywViolation ∨ ∃ key, v = keyViolation key) ∧
  NoDup vs ∧
  ((CheckLinearizability hist).1 = true ↔ vs = []).
Proof.
  intros ops vs.
  assert ((CheckLinearizability hist).1 = true ↔ vs = []) as Hverdict.
  { pose proof (CheckLinearizability_verdict hist) as Hv. fold vs in Hv.
    destruct ((CheckLinearizability hist).1), (decide (vs = [])) as [He|Hne];
      try done.
    - by apply Hv in Hne.
    - by destruct (proj1 Hv eq_refl). }
  destruct (decide (hist = [])) as [->|Hne].
  { subst ops vs. simpl. split; [|split; [|split; [|split]]]; try done.
    - intros key. split.
      + intros Hin. by apply not_elem_of_nil in Hin.
      + intros [(h & Hh & _) _]. by apply not_elem_of_nil in Hh.
    - split; [|done]. intros Hin. by apply not_elem_of_nil in Hin.
    - intros v Hin. by apply not_elem_of_nil in Hin.
    - constructor. }
  assert (vs = keyViolations (map_to_list (groupBy op_Key ops)) ++
               (if checkReadYourWrite ops then [] else [rywViolation]))
    as Hvs by (by apply CheckLinearizability_violations).
  clearbody vs. subst vs.
  split; [|split; [|split; [|split]]]; [| | | |done].
  - intros key. rewrite elem_of_app. split.
    + intros [Hin|Hin].
      * apply keyViolations_elem_inv in Hin as (key' & l & Hin & Hc & Heq).
        apply keyViolation_inj in Heq as <-.
        apply elem_of_map_to_list in Hin.
        pose proof (groupBy_lookup_Some _ _ _ _ Hin) as ->.
        split; [|done].
        rewrite groupBy_lookup in Hin.
        destruct (filter (λ o, op_Key o = key) ops) as [|o l] eqn:Hf; [done|].
        assert (o ∈ filter (λ o, op_Key o = key) ops) as Ho
          by (rewrite Hf; left).
        apply list_elem_of_filter in Ho as [Hk Ho].
        apply toOperation_elem in Ho as (h & Hh & ->). by exists h.
      * destruct (checkReadYourWrite ops).
        -- by apply not_elem_of_nil in Hin.
        -- apply list_elem_of_singleton in Hin. discriminate.
    + intros [(h & Hh & Hk) Hc]. left.
      eapply keyViolations_elem; [|exact Hc].
      apply elem_of_map_to_list. subst key.
      apply (groupBy_lookup_elem op_Key ops (toOperation h)).
      by apply toOperation_elem_2.
  - rewrite elem_of_app. split.
    + intros [Hin|Hin].
      * apply keyViolations_elem_inv in Hin as (key & _ & _ & _ & Heq).
        discriminate.
      * destruct (checkReadYourWrite ops); [|done].
        by apply not_elem_of_nil in Hin.
    + intros ->. right. left.
  - intros v Hin. apply elem_of_app in Hin as [Hin|Hin].
    + apply keyViolations_elem_inv in Hin as (key & _ & _ & _ & ->).
      right. by exists key.
    + destruct (checkReadYourWrite ops).
      * by apply not_elem_of_nil in Hin.
      * apply list_elem_of_singleton in Hin. by left.
  - apply NoDup_app. split; [|split].
    + apply keyViolations_NoDup, NoDup_fst_map_to_list.
    + intros v Hin Hin'.
      apply keyViolations_elem_inv in Hin as (key & _ & _ & _ & ->).
      destruct (checkReadYourWrite ops).
      * by apply not_elem_of_nil in Hin'.
      * apply list_elem_of_singleton in Hin'. discriminate.
    + destruct (checkReadYourWrite ops); [constructor|].
      apply NoDup_singleton.
Qed.

(** X2: What [CheckLinearizability] reports, message by message.  A
    string is among the violations exactly when it is the message
    naming a key that has a record in the history and on whose records
    the per-key pass fails, or it is the read-your-write message and
    that pass fails.  No message is reported twice, and the verdict is
    true exactly when there is no message. *)
Theorem violations_exact (hist : list HistoryEntry) :
  let ops := map toOperation hist in
  let vs := (CheckLinearizability hist).2 in
  (∀ v, v ∈ vs ↔
     (∃ key, v = keyViolation key ∧ (∃ h, h ∈ hist ∧ Key h = key) ∧
             checkKeyConsistency key (filter (λ o, op_Key o = key) ops)
             = false) ∨
     (v = rywViolation ∧ checkReadYourWrite ops = false)) ∧
  NoDup vs ∧
  ((CheckLinearizability hist).1 = true ↔ vs = []).
Proof.
  intros ops vs.
  destruct (violations_characterised hist) as (Hk & Hr & Hshape & Hnd & Hv).
  fold ops vs in Hk, Hr, Hshape, Hnd, Hv.
  split; [|done]. intros v. split.
  - intros Hin. destruct (Hshape v Hin) as [->|(key & ->)].
    + right. split; [done|]. by apply Hr.
    + left. exists key. split; [done|]. by apply Hk.
  - intros [(key & -> & Hkey)|[-> Hf]].
    + by apply Hk.
    + by apply Hr.
Qed.
End Violations.

Lemma NoDup_map_inj_on {A B} (f : A → B) l x y :
  NoDup (map f l) → x ∈ l → y ∈ l → f x = f y → x = y.
Proof.
  induction l as [|a l IH]; simpl; intros Hnd Hx Hy Hf.
  - by apply not_elem_of_nil in Hx.
  - apply NoDup_cons in Hnd as [Hnotin Hnd].
    apply elem_of_cons in Hx as [->|Hx]; apply elem_of_cons in Hy as [->|Hy].
    + done.
    + destruct Hnotin. rewrite Hf. apply list_elem_of_In, in_map.
      by apply list_elem_of_In.
    + destruct Hnotin. rewrite <- Hf. apply list_elem_of_In, in_map.
      by apply list_elem_of_In.
    + by apply IH.
Qed.

Lemma NoDup_starts_filter (P : Operation → Prop) `{∀ o, Decision (P o)}
  (hist : list HistoryEntry) :
  NoDup (map Start hist) →
  NoDup (map op_Start (filter P (map toOperation hist))).
Proof.
  intros Hnd.
  apply (sublist_NoDup _ (map op_Start (map toOperation hist))).
  - by rewrite map_map.
  - apply (fmap_sublist op_Start), sublist_filter.
Qed.

Lemma StronglySorted_weaken {A} (R1 R2 : A → A → Prop) l :
  (∀ a b, R1 a b → R2 a b) → StronglySorted R1 l → StronglySorted R2 l.
Proof.
  intros HR. induction 1 as [|a l Hs IH Ha]; constructor; [done|].
  eapply Forall_impl; [exact Ha|]. apply HR.
Qed.

Section OrderOfTheLog.
Context `{SliceSorter}.

(** Slices with pairwise distinct start times have one sorted form. *)
Lemma sortSlice_unique l1 l2 :
  l1 ≡ₚ l2 → NoDup (map op_Start l1) →
  sortSlice startBefore l1 = sortSlice startBefore l2.
Proof.
  intros Hp Hnd.
  apply (StronglySorted_unique_strong (λ a b, startBefore b a = false)).
  - intros x1 x2 Hx1 Hx2 H12 H21.
    apply (proj1 (sorted_elem _ _)) in Hx1.
    apply (proj1 (sorted_elem _ _)) in Hx2.
    rewrite <- Hp in Hx2.
    apply (NoDup_map_inj_on op_Start l1); try done.
    unfold startBefore, Before in H12, H21.
    apply Z.ltb_ge in H12, H21. lia.
  - apply sortSlice_sorted, startBefore_strictWeak.
  - apply sortSlice_sorted, startBefore_strictWeak.
  - by rewrite !sortSlice_perm.
Qed.

(** A sorted slice with distinct start times is left as it is. *)
Lemma sortSlice_sorted_id l :
  StronglySorted (λ a b, (op_Start a < op_Start b)%Z) l →
  sortSlice startBefore l = l.
Proof.
  intros Hs.
  apply (StronglySorted_unique_strong (λ a b, startBefore b a = false)).
  - intros x1 x2 Hx1 Hx2 H12 H21.
    apply (proj1 (sorted_elem _ _)) in Hx1.
    unfold startBefore, Before in H12, H21. apply Z.ltb_ge in H12, H21.
    apply list_elem_of_lookup in Hx1 as [i Hi].
    apply list_elem_of_lookup in Hx2 as [j Hj].
    destruct (Nat.lt_trichotomy i j) as [Hlt|[->|Hlt]].
    + pose proof (StronglySorted_lookup _ _ _ _ _ _ Hs Hlt Hi Hj) as Hij.
      simpl in Hij. lia.
    + congruence.
    + pose proof (StronglySorted_lookup _ _ _ _ _ _ Hs Hlt Hj Hi) as Hji.
      simpl in Hji. lia.
  - apply sortSlice_sorted, startBefore_strictWeak.
  - eapply StronglySorted_weaken; [|exact Hs]. simpl. intros a b Hab.
    unfold startBefore, Before. apply Z.ltb_ge. lia.
  - apply sortSlice_perm.
Qed.

Lemma checkReadYourWrite_perm hist1 hist2 :
  hist1 ≡ₚ hist2 → NoDup (map Start hist1) →
  checkReadYourWrite (map toOperation hist1)
  = checkReadYourWrite (map toOperation hist2).
Proof.
  intros Hp Hnd.
  assert (∀ h1 h2, h1 ≡ₚ h2 → NoDup (map Start h1) →
            checkReadYourWrite (map toOperation h1) = false →
            checkReadYourWrite (map toOperation h2) = false) as Hdir.
  { intros h1 h2 Hp' Hnd' Hf.
    apply checkReadYourWrite_false in Hf as (o & Ho & Hf).
    apply checkReadYourWrite_false. exists o. split.
    - by rewrite <- Hp'.
    - rewrite <- Hf. f_equal. symmetry. apply sortSlice_unique.
      + by rewrite Hp'.
      + by apply NoDup_starts_filter. }
  destruct (checkReadYourWrite (map toOperation hist1)) eqn:H1,
    (checkReadYourWrite (map toOperation hist2)) eqn:H2; try done.
  - rewrite (Hdir hist2 hist1) in H1; try done.
    by rewrite <- Hp.
  - by rewrite (Hdir hist1 hist2) in H2.
Qed.

(** X3: The checker sorts for itself: when the start times of a history are
    pairwise distinct, the order of its records does not matter for
    the verdict nor for the set of messages. *)
Theorem verdict_independent_of_log_order (hist1 hist2 : list HistoryEntry) :
  hist1 ≡ₚ hist2 → NoDup (map Start hist1) →
  (CheckLinearizability hist1).1 = (CheckLinearizability hist2).1 ∧
  (CheckLinearizability hist1).2 ≡ₚ (CheckLinearizability hist2).2.
Proof.
  intros Hp Hnd.
  destruct (violations_characterised hist1) as (Hk1 & Hr1 & Hs1 & Hn1 & Hv1).
  destruct (violations_characterised hist2) as (Hk2 & Hr2 & Hs2 & Hn2 & Hv2).
  simpl in *.
  assert ((CheckLinearizability hist1).2 ≡ₚ (CheckLinearizability hist2).2)
    as Hperm.
  { apply NoDup_Permutation; try done. intros v.
    assert (∀ key,
      checkKeyConsistency key
        (filter (λ o, op_Key o = key) (map toOperation hist1))
      = checkKeyConsistency key
        (filter (λ o, op_Key o = key) (map toOperation hist2))) as Hck.
    { intros key. unfold checkKeyConsistency.
      rewrite (sortSlice_unique
                 (filter (λ o, op_Key o = key) (map toOperation hist1))
                 (filter (λ o, op_Key o = key) (map toOperation hist2)));
        [done| |by apply NoDup_starts_filter].
      by rewrite Hp. }
    split; intros Hv.
    - destruct (Hs1 v Hv) as [->|(key & ->)].
      + apply Hr2. rewrite <- (checkReadYourWrite_perm hist1 hist2) by done.
        by apply Hr1.
      + apply Hk2. apply Hk1 in Hv as [(h & Hh & Hkey) Hc]. split.
        * exists h. split; [by rewrite <- Hp|done].
        * by rewrite <- Hck.
    - destruct (Hs2 v Hv) as [->|(key & ->)].
      + apply Hr1. rewrite (checkReadYourWrite_perm hist1 hist2) by done.
        by apply Hr2.
      + apply Hk1. apply Hk2 in Hv as [(h & Hh & Hkey) Hc]. split.
        * exists h. split; [by rewrite Hp|done].
        * by rewrite Hck. }
  split; [|done].
  destruct ((CheckLinearizability hist1).1) eqn:E1,
    ((CheckLinearizability hist2).1) eqn:E2; try done.
  - assert ((CheckLinearizability hist1).2 = []) as He by (by apply Hv1).
    rewrite He in Hperm. symmetry in Hperm.
    apply Permutation_nil_r in Hperm. apply Hv2 in Hperm. congruence.
  - assert ((CheckLinearizability hist2).2 = []) as He by (by apply Hv2).
    rewrite He in Hperm. apply Permutation_nil_r in Hperm.
    apply Hv1 in Hperm. congruence.
Qed.
End OrderOfTheLog.

(** * The checker on the store's own logs *)

Lemma StronglySorted_snoc {A} (R : A → A → Prop) l x :
  StronglySorted R l → Forall (λ a, R a x) l → StronglySorted R (l ++ [x]).
Proof.
  intros Hs Hf. apply StronglySorted_app_2; [|done|repeat constructor].
  intros a b Ha Hb. apply list_elem_of_singleton in Hb as ->.
  rewrite Forall_forall in Hf. by apply Hf.
Qed.

Lemma seqInv_append c c' s s' h :
  history s' = history s ++ [h] →
  registerStep h (kv s, seenWrite s) = Some (kv s', seenWrite s') →
  (c < Start h)%Z → (Start h ≤ c')%Z →
  seqInv c s → seqInv c' s'.
Proof.
  intros Hh Hstep Hlt Hle (Hreg & Hst & Hso). unfold seqInv. rewrite Hh.
  split; [|split].
  - by rewrite (registerRun_snoc _ _ _ _ Hreg).
  - apply Forall_app. split; [|by repeat constructor].
    eapply Forall_impl; [exact Hst|]. simpl. intros a. lia.
  - apply StronglySorted_snoc; [done|].
    eapply Forall_impl; [exact Hst|]. simpl. intros a. lia.
Qed.

Lemma seqInv_clock c c' s : (c ≤ c')%Z → seqInv c s → seqInv c' s.
Proof.
  intros Hle (Hreg & Hst & Hso). split; [done|]. split; [|done].
  eapply Forall_impl; [exact Hst|]. simpl. intros a. lia.
Qed.

Lemma serve_seqInv r c s :
  ticking r → seqInv c s → seqInv (serve r c s).1.2 (serve r c s).2.
Proof.
  destruct r as [[req|] d1 d2|key reqID d1 d2]; intros Ht Hinv;
    unfold ticking in Ht; simpl.
  - unfold handlePut. destruct (putInvalid req).
    + simpl. eapply seqInv_clock; [|done]. apply time_Now_le.
    + pose proof (registerStep_put req (time_Now d1 c)
                    (time_Now d2 (time_Now d1 c)) s) as Hstep.
      pose proof (applyPut_history req s) as Hh.
      destruct (applyPut req s) as [result s1]. simpl in Hstep, Hh.
      eapply seqInv_append; [| |..|exact Hinv]; simpl.
      * by rewrite Hh.
      * done.
      * cbn [Start putEntry getEntry]. unfold time_Now. lia.
      * cbn [Start putEntry getEntry]. unfold time_Now. lia.
  - eapply seqInv_clock; [|done]. apply time_Now_le.
  - unfold handleGet. destruct (String.eqb key "").
    + simpl. eapply seqInv_clock; [|done]. apply time_Now_le.
    + pose proof (registerStep_get key reqID (time_Now d1 c)
                    (time_Now d2 (time_Now d1 c)) (kv s) (seenWrite s))
        as Hstep.
      destruct (kvLookup (kv s) key) as [value ok]. simpl in Hstep.
      eapply seqInv_append; [| |..|exact Hinv]; simpl.
      * done.
      * done.
      * cbn [Start putEntry getEntry]. unfold time_Now. lia.
      * cbn [Start putEntry getEntry]. unfold time_Now. lia.
Qed.

Lemma serveAll_seqInv rs c s :
  Forall ticking rs → seqInv c s →
  seqInv (serveAll rs c s).1 (serveAll rs c s).2.
Proof.
  intros Hrs. revert c s.
  induction Hrs as [|r rs Hr _ IH]; intros c s Hinv; simpl; [done|].
  pose proof (serve_seqInv r c s Hr Hinv) as Hinv'.
  destruct (serve r c s) as [[resp c1] s1]. by apply IH.
Qed.

Lemma seqInv_NewStore c : seqInv c NewStore.
Proof. split; [done|]. split; constructor. Qed.

(** Along a log that replays on the register, the per-key loop always
    finds the value an Ok [Get] returns in [latestValue]. *)
Lemma keyLoop_register key all hist r r' latest :
  registerRun hist r = Some r' →
  (∀ v, r.1 !! key = Some v → latest = v) →
  keyLoop key all latest
    (filter (λ o, op_Key o = key) (map toOperation hist)) = true.
Proof.
  revert r latest. induction hist as [|h hist IH]; intros r latest; simpl.
  - done.
  - destruct (registerStep h r) as [r1|] eqn:Hstep; [|done].
    intros Hrun Hag. unfold registerStep in Hstep.
    destruct (decide (op_Key (toOperation h) = key)) as [Hk|Hk].
    + rewrite filter_cons_True by done. simpl in Hk. simpl.
      destruct (String.eqb_spec (Op h) "PUT") as [Hop|Hop].
      * destruct (bool_decide (RequestID h ∈ r.2)).
        -- destruct (String.eqb_spec (Result h) "duplicate") as [Hres|];
             [|done].
           injection Hstep as <-. rewrite Hres. simpl.
           rewrite Hop. simpl. by eapply IH.
        -- destruct (String.eqb_spec (Result h) "ok") as [Hres|]; [|done].
           injection Hstep as <-. simpl. eapply IH; [exact Hrun|].
           simpl. rewrite Hk, lookup_insert_eq. by intros v [= <-].
      * simpl. destruct (String.eqb_spec (Op h) "GET") as [Hget|]; [|done].
        destruct (r.1 !! Key h) as [v|] eqn:Hl.
        -- destruct (String.eqb_spec (Result h) "ok") as [Hres|]; [|done].
           destruct (String.eqb_spec (Value h) v) as [Hv|]; [|done].
           injection Hstep as <-. simpl.
           rewrite Hk in Hl. pose proof (Hag v Hl) as Hlv.
           rewrite Hv, Hlv, String.eqb_refl. simpl.
           eapply IH; [exact Hrun|]. by rewrite <- Hlv.
        -- destruct (String.eqb_spec (Result h) "not_found") as [Hres|];
             [|done].
           injection Hstep as <-. rewrite Hres. simpl. by eapply IH.
    + rewrite filter_cons_False by done. simpl in Hk.
      eapply IH; [exact Hrun|].
      destruct (String.eqb (Op h) "PUT").
      * destruct (bool_decide (RequestID h ∈ r.2)).
        -- destruct (String.eqb (Result h) "duplicate"); [|done].
           by injection Hstep as <-.
        -- destruct (String.eqb (Result h) "ok"); [|done].
           injection Hstep as <-. simpl. by rewrite lookup_insert_ne.
      * destruct (String.eqb (Op h) "GET"); [|done].
        destruct (r.1 !! Key h).
        -- destruct (String.eqb (Result h) "ok" && String.eqb (Value h) s);
             [|done]. by injection Hstep as <-.
        -- destruct (String.eqb (Result h) "not_found"); [|done].
           by injection Hstep as <-.
Qed.

Lemma StronglySorted_filter {A} (R : A → A → Prop) (P : A → Prop)
  `{∀ x, Decision (P x)} l :
  StronglySorted R l → StronglySorted R (filter P l).
Proof.
  induction 1 as [|a l Hs IH Ha]; [constructor|].
  rewrite filter_cons. destruct (decide (P a)); [|done].
  constructor; [done|].
  apply Forall_forall. intros x Hx. apply list_elem_of_filter in Hx as [_ Hx].
  rewrite Forall_forall in Ha. by apply Ha.
Qed.

Lemma operations_strictly_sorted (P : Operation → Prop)
  `{∀ o, Decision (P o)} (hist : list HistoryEntry) :
  StronglySorted (λ a b, (Start a < Start b)%Z) hist →
  StronglySorted (λ a b, (op_Start a < op_Start b)%Z)
    (filter P (map toOperation hist)).
Proof.
  intros Hs. apply StronglySorted_filter.
  by apply (StronglySorted_fmap toOperation
              (λ a b, (Start a < Start b)%Z)).
Qed.

Section StoreLogs.
Context `{SliceSorter}.

(** The per-key pass accepts the records of any key in a log that
    replays on the register and whose records start one strictly after
    the other. *)
Lemma checkKeyConsistency_replay key hist r :
  registerRun hist (∅, ∅) = Some r →
  StronglySorted (λ a b, (Start a < Start b)%Z) hist →
  checkKeyConsistency key
    (filter (λ o, op_Key o = key) (map toOperation hist)) = true.
Proof.
  intros Hrun Hs. unfold checkKeyConsistency.
  rewrite sortSlice_sorted_id by (by apply operations_strictly_sorted).
  eapply keyLoop_register; [exact Hrun|]. simpl. intros v Hv.
  by rewrite lookup_empty in Hv.
Qed.

(** X4: On the log of a run that serves one request after the other, with
    the clock advancing before each request starts, the per-key pass
    finds nothing: no message naming a key is reported, and the verdict
    is the result of the read-your-write pass. *)
Theorem sequential_log_passes_per_key (rs : list Request) (c0 : Z) :
  Forall ticking rs →
  let hist := history (serveAll rs c0 NewStore).2 in
  (∀ key, keyViolation key ∉ (CheckLinearizability hist).2) ∧
  (CheckLinearizability hist).1 = checkReadYourWrite (map toOperation hist).
Proof.
  intros Hrs hist.
  destruct (serveAll_seqInv rs c0 NewStore Hrs (seqInv_NewStore c0))
    as (Hreg & _ & Hso). fold hist in Hreg, Hso.
  destruct (violations_characterised hist) as (Hk & Hr & Hshape & _ & Hv).
  simpl in Hk, Hr, Hshape, Hv.
  assert (∀ key, keyViolation key ∉ (CheckLinearizability hist).2) as Hnokey.
  { intros key Hin. apply Hk in Hin as [_ Hc].
    by rewrite (checkKeyConsistency_replay key hist _ Hreg Hso) in Hc. }
  split; [done|].
  destruct (checkReadYourWrite (map toOperation hist)) eqn:Hryw.
  - apply Hv.
    destruct ((CheckLinearizability hist).2) as [|v vs] eqn:Hvs; [done|].
    destruct (Hshape v ltac:(left)) as [->|(key & ->)].
    + assert (rywViolation ∈ rywViolation :: vs) as Hin by left.
      apply Hr in Hin. done.
    + destruct (Hnokey key). left.
  - destruct ((CheckLinearizability hist).1) eqn:Hb; [|done].
    pose proof (proj1 Hv eq_refl) as Hnil.
    assert (rywViolation ∈ (CheckLinearizability hist).2)
      as Hin by (by apply Hr).
    rewrite Hnil in Hin. by apply not_elem_of_nil in Hin.
Qed.
End StoreLogs.

(** *** How [sort.Slice] breaks ties does not matter without ties *)

Lemma sortSlice_any_sorter (S1 S2 : SliceSorter) l :
  NoDup (map op_Start l) →
  @sortSlice S1 startBefore l = @sortSlice S2 startBefore l.
Proof.
  intros Hnd.
  apply (StronglySorted_unique_strong (λ a b, startBefore b a = false)).
  - intros x1 x2 Hx1 Hx2 H12 H21.
    apply (proj1 (@sorted_elem S1 _ _)) in Hx1.
    apply (proj1 (@sorted_elem S2 _ _)) in Hx2.
    apply (NoDup_map_inj_on op_Start l); try done.
    unfold startBefore, Before in H12, H21.
    apply Z.ltb_ge in H12, H21. lia.
  - apply sortSlice_sorted, startBefore_strictWeak.
  - apply sortSlice_sorted, startBefore_strictWeak.
  - by rewrite !sortSlice_perm.
Qed.

Lemma flat_map_ext_elem {A B} (f g : A → list B) l :
  (∀ x, x ∈ l → f x = g x) → flat_map f l = flat_map g l.
Proof.
  induction l as [|a l IH]; simpl; intros Hfg; [done|].
  rewrite (Hfg a) by left. f_equal. apply IH. intros x Hx. apply Hfg.
  by right.
Qed.

Lemma forallb_ext_elem {A} (f g : A → bool) l :
  (∀ x, x ∈ l → f x = g x) → forallb f l = forallb g l.
Proof.
  induction l as [|a l IH]; simpl; intros Hfg; [done|].
  rewrite (Hfg a) by left. f_equal. apply IH. intros x Hx. apply Hfg.
  by right.
Qed.

Lemma checkReadYourWrite_any_sorter (S1 S2 : SliceSorter)
  (hist : list HistoryEntry) :
  NoDup (map Start hist) →
  @checkReadYourWrite S1 (map toOperation hist)
  = @checkReadYourWrite S2 (map toOperation hist).
Proof.
  intros Hnd. unfold checkReadYourWrite. apply forallb_ext_elem.
  intros [c cops] Hin. simpl. f_equal.
  apply elem_of_map_to_list, groupBy_lookup_Some in Hin as ->.
  apply sortSlice_any_sorter. by apply NoDup_starts_filter.
Qed.

Lemma keyViolations_any_sorter (S1 S2 : SliceSorter)
  (hist : list HistoryEntry) :
  NoDup (map Start hist) →
  @keyViolations S1 (map_to_list (groupBy op_Key (map toOperation hist)))
  = @keyViolations S2 (map_to_list (groupBy op_Key (map toOperation hist))).
Proof.
  intros Hnd. unfold keyViolations. apply flat_map_ext_elem.
  intros [key kops] Hin. simpl.
  apply elem_of_map_to_list, groupBy_lookup_Some in Hin as ->.
  unfold checkKeyConsistency.
  rewrite (sortSlice_any_sorter S1 S2) by (by apply NoDup_starts_filter).
  done.
Qed.

(** The same, for a history given by name. *)
Lemma CheckLinearizability_as_sorted (S : SliceSorter)
  (hist : list HistoryEntry) (result : bool * list string) :
  NoDup (map Start hist) →
  @CheckLinearizability goInsertionSort hist = result →
  @CheckLinearizability S hist = result.
Proof.
  intros Hnd <-. unfold CheckLinearizability.
  destruct (Nat.eqb (length hist) 0); [done|].
  by rewrite (checkReadYourWrite_any_sorter S goInsertionSort),
    (keyViolations_any_sorter S goInsertionSort).
Qed.

(** X5: When the start times of a history are pairwise distinct, the
    checker returns the same verdict and the same messages whatever
    sorting procedure stands behind [sort.Slice]. *)
Theorem result_independent_of_sorter (S1 S2 : SliceSorter)
  (hist : list HistoryEntry) :
  NoDup (map Start hist) →
  @CheckLinearizability S1 hist = @CheckLinearizability S2 hist.
Proof.
  intros Hnd. unfold CheckLinearizability.
  destruct (Nat.eqb (length hist) 0); [done|].
  rewrite (checkReadYourWrite_any_sorter S1 S2) by done.
  rewrite (keyViolations_any_sorter S1 S2) by done.
  done.
Qed.

(** X6: The checker can reject what the store did.  Served one after the
    other, a write by ["A"], an overwrite by ["B"] and a read by ["A"]
    of the stored value fail the read-your-write pass; and when two
    [Put]s race and the one that started first is applied last, the
    read of its value fails the per-key pass.  Both logs come from the
    store itself, with the clock advancing at every reading that
    matters. *)
Theorem store_logs_can_be_rejected (S : SliceSorter) :
  (Forall ticking overwrittenThenRead ∧
   @CheckLinearizability S
      (history (serveAll overwrittenThenRead 0 NewStore).2)
     = (false, [rywViolation])) ∧
  (reachable overtakenState ∧ mu overtakenState = false ∧
   Forall (λ p, ∃ resp, p = Done resp) (threads overtakenState) ∧
   @CheckLinearizability S (history (store overtakenState))
     = (false, [keyViolation "k"])).
Proof.
  split.
  - split; [repeat constructor|].
    apply CheckLinearizability_as_sorted.
    + apply (bool_decide_unpack _). by vm_compute.
    + by vm_compute.
  - split; [exists 0%Z, overtakingEvents; by vm_compute|].
    split; [by vm_compute|]. split.
    + vm_compute. repeat constructor; by eexists.
    + apply CheckLinearizability_as_sorted.
      * apply (bool_decide_unpack _). by vm_compute.
      * by vm_compute.
Qed.

(** * The store and its log, under interleaving *)

Lemma registerStep_seen h r r' id :
  registerStep h r = Some r' →
  id ∈ r'.2 ↔ id ∈ r.2 ∨ appliedBy id h.
Proof.
  unfold registerStep, appliedBy. intros Hstep.
  destruct (String.eqb_spec (Op h) "PUT") as [Hop|Hop].
  - case_bool_decide as Hin.
    + destruct (String.eqb_spec (Result h) "duplicate") as [Hres|]; [|done].
      injection Hstep as <-. split; [by left|].
      intros [?|(_ & Hok & <-)]; [done|]. done.
    + destruct (String.eqb_spec (Result h) "ok") as [Hres|]; [|done].
      injection Hstep as <-. simpl. rewrite elem_of_union, elem_of_singleton.
      split.
      * intros [->|?]; [by right|by left].
      * intros [?|(_ & _ & <-)]; [by right|by left].
  - destruct (String.eqb (Op h) "GET"); [|done].
    assert (r' = r) as ->.
    { destruct (r.1 !! Key h).
      - by destruct (String.eqb (Result h) "ok" && String.eqb (Value h) s);
          [injection Hstep|].
      - by destruct (String.eqb (Result h) "not_found"); [injection Hstep|]. }
    split; [by left|]. intros [?|(? & _)]; done.
Qed.

Lemma registerRun_seen l r r' id :
  registerRun l r = Some r' →
  id ∈ r'.2 ↔ id ∈ r.2 ∨ ∃ h, h ∈ l ∧ appliedBy id h.
Proof.
  revert r. induction l as [|h l IH]; intros r; simpl.
  - intros [= <-]. split; [by left|].
    intros [?|(h & Hh & _)]; [done|]. by apply not_elem_of_nil in Hh.
  - destruct (registerStep h r) as [r1|] eqn:Hstep; [|done]. intros Hrun.
    rewrite (IH _ Hrun), (registerStep_seen _ _ _ id Hstep). split.
    + intros [[?|?]|(h' & Hh' & ?)].
      * by left.
      * right. exists h. split; [left|done].
      * right. exists h'. split; [by right|done].
    + intros [?|(h' & Hh' & Hap)]; [by left; left|].
      apply elem_of_cons in Hh' as [->|Hh'].
      * left. by right.
      * right. by exists h'.
Qed.

Lemma reachable_log_replays σ :
  reachable σ →
  ∃ r, registerRun (history (store σ)) (∅, ∅) = Some r ∧
       (mu σ = false → r = (kv (store σ), seenWrite (store σ))).
Proof.
  intros Hr. pose proof (storeInv_reachable σ Hr) as Hinv.
  pose proof (inv_register _ Hinv) as Hreg.
  rewrite registerRun_app in Hreg.
  destruct (registerRun (history (store σ)) (∅, ∅)) as [r|]; [|done].
  exists r. split; [done|]. intros Hm.
  pose proof (inv_mutex _ Hinv) as Hmu. rewrite Hm in Hmu.
  rewrite (csCount_0_pendings _ Hmu) in Hreg. simpl in Hreg. congruence.
Qed.

(** X7: Each request identifier is applied at most once.  In every reachable
    log, a [Put] record has outcome Ok exactly when no earlier record
    is an applied [Put] with its request identifier, and outcome
    Duplicate otherwise; and when the mutex is free the dedup set holds
    exactly the request identifiers of the applied [Put]s of the log. *)
Theorem request_applied_at_most_once (σ : System) :
  reachable σ →
  (∀ pre h post, history (store σ) = pre ++ h :: post → Op h = "PUT" →
     (Result h = "ok" ∧ ∀ h', h' ∈ pre → ¬ appliedBy (RequestID h) h') ∨
     (Result h = "duplicate" ∧ ∃ h', h' ∈ pre ∧ appliedBy (RequestID h) h')) ∧
  (mu σ = false → ∀ id,
     id ∈ seenWrite (store σ) ↔
     ∃ h, h ∈ history (store σ) ∧ appliedBy id h).
Proof.
  intros Hr. destruct (reachable_log_replays σ Hr) as (r & Hrun & Hfree).
  split.
  - intros pre h post Hsplit Hop. rewrite Hsplit in Hrun.
    destruct (registerRun_split _ _ _ _ _ Hrun) as (r1 & r2 & Hpre & Hstep).
    pose proof (registerRun_seen pre _ _ (RequestID h) Hpre) as Hseen.
    simpl in Hseen.
    unfold registerStep in Hstep. rewrite Hop in Hstep. simpl in Hstep.
    case_bool_decide as Hin.
    + right. destruct (String.eqb_spec (Result h) "duplicate"); [|done].
      split; [done|]. apply Hseen in Hin as [Hin|?]; [|done].
      by apply not_elem_of_empty in Hin.
    + left. destruct (String.eqb_spec (Result h) "ok"); [|done].
      split; [done|]. intros h' Hh' Hap. apply Hin, Hseen. right.
      by exists h'.
  - intros Hm id. rewrite (Hfree Hm) in Hrun.
    rewrite (registerRun_seen _ _ _ id Hrun). simpl. split.
    + intros [Hin|?]; [|done]. by apply not_elem_of_empty in Hin.
    + intros ?. by right.
Qed.

(** X8: Reads see the last applied write.  In every reachable state with
    the mutex free, the map holds for each key the value of the last
    applied [Put] to that key in the log, and nothing for a key without
    one; so [handleGet] with a non-empty key answers with that value and
    Ok, or with NotFound. *)
Theorem map_is_last_applied_put (σ : System) :
  reachable σ → mu σ = false →
  (∀ key, kv (store σ) !! key = lastOkPut key (history (store σ))) ∧
  (∀ key reqID d1 d2 c, key ≠ "" →
     (handleGet key reqID d1 d2 c (store σ)).1.1 =
     match lastOkPut key (history (store σ)) with
     | Some v => GetReply {| resp_Key := key; resp_Value := v;
                             resp_Found := true; resp_Result := "ok" |}
     | None => GetReply {| resp_Key := key; resp_Value := "";
                           resp_Found := false;
                           resp_Result := "not_found" |}
     end).
Proof.
  intros Hr Hm. destruct (reachable_log_replays σ Hr) as (r & Hrun & Hfree).
  rewrite (Hfree Hm) in Hrun.
  assert (∀ key, kv (store σ) !! key = lastOkPut key (history (store σ)))
    as Hkv.
  { intros key. pose proof (registerRun_lookup _ _ _ key Hrun) as Hl.
    simpl in Hl. rewrite lookup_empty in Hl.
    by destruct (lastOkPut key (history (store σ))). }
  split; [done|].
  intros key reqID d1 d2 c Hk. rewrite handleGet_response.
  apply String.eqb_neq in Hk. rewrite Hk. unfold kvLookup. rewrite Hkv.
  by destruct (lastOkPut key (history (store σ))).
Qed.

Lemma putInvalid_false req :
  putInvalid req = false → req_RequestID req ≠ "" ∧ req_Key req ≠ "".
Proof.
  intros Hv. split; intros He;
    (assert (putInvalid req = true) by (apply putInvalid_spec; tauto));
    congruence.
Qed.

Lemma stepThread_valid d p st clk m p' st' clk' m' :
  stepThread d p st clk m = Some (p', st', clk', m') →
  pcValid p → Forall wellFormed (history st) →
  pcValid p' ∧ Forall wellFormed (history st').
Proof.
  destruct p; simpl; intros Hs Hp Hh.
  - destruct body as [req|]; [destruct (putInvalid req) eqn:Hv|];
      injection Hs as <- <- <- <-; done.
  - destruct m; [done|]. by injection Hs as <- <- <- <-.
  - pose proof (applyPut_history req st) as Hhist. unfold applyPut in *.
    case_bool_decide; injection Hs as <- <- <- <-; simpl in *;
      (split; [split; [done|tauto]|done]).
  - by injection Hs as <- <- <- <-.
  - injection Hs as <- <- <- <-. split; [done|]. simpl.
    apply Forall_app. split; [done|]. constructor; [|constructor].
    destruct Hp as [Hv Hres]. apply putInvalid_false in Hv as [? ?].
    unfold wellFormed. simpl. unfold Sub. tauto.
  - by injection Hs as <- <- <- <-.
  - destruct (String.eqb_spec key ""); injection Hs as <- <- <- <-; done.
  - destruct m; [done|]. by injection Hs as <- <- <- <-.
  - unfold kvLookup in Hs. destruct (kv st !! key);
      injection Hs as <- <- <- <-; done.
  - by injection Hs as <- <- <- <-.
  - injection Hs as <- <- <- <-. split; [done|]. simpl.
    apply Forall_app. split; [done|]. constructor; [|constructor].
    destruct Hp as [Hk Hval]. unfold wellFormed. simpl. unfold Sub.
    split; [done|]. split; [done|]. right. split; [done|].
    destruct ok; [by left|right]. split; [done|]. by apply Hval.
  - by injection Hs as <- <- <- <-.
  - done.
Qed.

Lemma sysStep_valid e σ σ' :
  sysStep e σ = Some σ' →
  Forall pcValid (threads σ) ∧ Forall wellFormed (history (store σ)) →
  Forall pcValid (threads σ') ∧ Forall wellFormed (history (store σ')).
Proof.
  destruct e as [body|key reqID|i d]; simpl.
  - intros [= <-] [Ht Hh]. simpl. split; [|done].
    apply Forall_app. split; [done|]. by repeat constructor.
  - intros [= <-] [Ht Hh]. simpl. split; [|done].
    apply Forall_app. split; [done|]. by repeat constructor.
  - destruct (threads σ !! i) as [p|] eqn:Hi; [|done].
    destruct (stepThread d p (store σ) (clock σ) (mu σ))
      as [[[[p' st'] clk'] m']|] eqn:Hs; [|done].
    intros [= <-] [Ht Hh]. simpl.
    assert (pcValid p) as Hp.
    { rewrite Forall_lookup in Ht. by eapply Ht. }
    destruct (stepThread_valid _ _ _ _ _ _ _ _ _ Hs Hp Hh) as [Hp' Hh'].
    split; [|done]. by apply Forall_insert.
Qed.

Lemma reachable_valid σ :
  reachable σ →
  Forall pcValid (threads σ) ∧ Forall wellFormed (history (store σ)).
Proof.
  intros (c0 & es & Hrun).
  assert (∀ σ0, Forall pcValid (threads σ0) ∧
                Forall wellFormed (history (store σ0)) →
                runEvents es σ0 = Some σ →
                Forall pcValid (threads σ) ∧
                Forall wellFormed (history (store σ))) as Hgen.
  { clear Hrun. induction es as [|e es IH]; intros σ0 Hinv; simpl.
    - by intros [= <-].
    - destruct (sysStep e σ0) as [σ1|] eqn:He; [|done].
      apply IH. by eapply sysStep_valid. }
  apply (Hgen (initial c0)); [|done]. split; constructor.
Qed.

(** X9: Every record of every reachable log is well formed: its key is not
    empty; a [Put] record has a non-empty request identifier and
    outcome Ok or Duplicate; a [Get] record is Ok, or NotFound with an
    empty value; and its duration is the non-negative difference of
    its end and start times. *)
Theorem log_records_well_formed (σ : System) :
  reachable σ →
  Forall (λ h, wellFormed h ∧ (0 ≤ Duration h)%Z) (history (store σ)).
Proof.
  intros Hr. destruct (reachable_valid σ Hr) as [_ Hwf].
  pose proof (inv_entries _ (storeInv_reachable σ Hr)) as Hent.
  apply Forall_forall. intros h Hh.
  rewrite Forall_forall in Hwf. rewrite Forall_forall in Hent.
  specialize (Hwf h Hh). specialize (Hent h Hh). simpl in Hent.
  split; [done|]. destruct Hwf as (_ & -> & _). lia.
Qed.

(** * The endpoint and its log *)

Lemma kvEndpoint_logged r c s :
  ∃ added,
    history (kvEndpoint r c s).2 = history s ++ added ∧
    map Result added = answered (kvEndpoint r c s).1.1 ∧
    ((kvEndpoint r c s).1.1 ≠ PutReply "ok" →
     kv (kvEndpoint r c s).2 = kv s ∧
     seenWrite (kvEndpoint r c s).2 = seenWrite s) ∧
    (answered (kvEndpoint r c s).1.1 = [] →
     (kvEndpoint r c s).2 = s ∧
     ∃ msg code, (kvEndpoint r c s).1.1 = HttpError msg code ∧
                 (code = StatusBadRequest ∨ code = StatusMethodNotAllowed)).
Proof.
  unfold kvEndpoint.
  destruct (String.eqb (call_method r) "PUT" ||
            String.eqb (call_method r) "POST").
  - unfold handlePut. destruct (call_body r) as [req|];
      [destruct (putInvalid req)|].
    + exists []. simpl. rewrite app_nil_r. repeat split; try done.
      eexists _, _. split; [done|]. by left.
    + unfold applyPut. case_bool_decide; simpl.
      * eexists [_]. repeat split; done.
      * eexists [_]. repeat split; done.
    + exists []. simpl. rewrite app_nil_r. repeat split; try done.
      eexists _, _. split; [done|]. by left.
  - destruct (String.eqb (call_method r) "GET").
    + unfold handleGet. destruct (String.eqb (call_key r) "").
      * exists []. simpl. rewrite app_nil_r. repeat split; try done.
        eexists _, _. split; [done|]. by left.
      * destruct (kvLookup (kv s) (call_key r)) as [value ok]. simpl.
        eexists [_]. repeat split; done.
    + exists []. simpl. rewrite app_nil_r. repeat split; try done.
      eexists _, _. split; [done|]. by right.
Qed.

Lemma kvEndpointAll_cons r calls c s :
  kvEndpointAll (r :: calls) c s =
  ((kvEndpoint r c s).1.1 ::
     (kvEndpointAll calls (kvEndpoint r c s).1.2 (kvEndpoint r c s).2).1.1,
   (kvEndpointAll calls (kvEndpoint r c s).1.2 (kvEndpoint r c s).2).1.2,
   (kvEndpointAll calls (kvEndpoint r c s).1.2 (kvEndpoint r c s).2).2).
Proof.
  simpl. destruct (kvEndpoint r c s) as [[resp c1] s1]. simpl.
  by destruct (kvEndpointAll calls c1 s1) as [[resps c2] s2].
Qed.

(** X10: Every call to the endpoint gets one answer.  The log grows by one
    record per answer that is not an error, in the order of the
    answers and with their results; an error answer (400 or 405)
    leaves the store as it is; and the map and the dedup set change
    only when a [Put] is answered Ok. *)
Theorem endpoint_logs_what_it_answers (calls : list Call) (c : Z)
  (s : Store) :
  let resps := (kvEndpointAll calls c s).1.1 in
  let s' := (kvEndpointAll calls c s).2 in
  length resps = length calls ∧
  (∃ added, history s' = history s ++ added ∧
            map Result added = flat_map answered resps) ∧
  ((∀ resp, resp ∈ resps → resp ≠ PutReply "ok") →
   kv s' = kv s ∧ seenWrite s' = seenWrite s) ∧
  ((∀ resp, resp ∈ resps → answered resp = []) → s' = s) ∧
  (∀ msg code, HttpError msg code ∈ resps →
     code = StatusBadRequest ∨ code = StatusMethodNotAllowed).
Proof.
  revert c s. induction calls as [|r calls IH]; intros c s.
  - simpl. repeat split; try done.
    + exists []. by rewrite app_nil_r.
    + intros msg code Hin. by apply not_elem_of_nil in Hin.
  - rewrite kvEndpointAll_cons. cbn [fst snd].
    destruct (kvEndpoint_logged r c s) as (added1 & Hh1 & Hr1 & Hkv1 & Herr1).
    specialize (IH (kvEndpoint r c s).1.2 (kvEndpoint r c s).2).
    cbn zeta in IH. destruct IH as (Hlen & (added2 & Hh2 & Hr2) & Hkv2 & Hid2 & Hc2).
    split; [simpl; by rewrite Hlen|]. split; [|split; [|split]].
    + exists (added1 ++ added2). split.
      * by rewrite Hh2, Hh1, app_assoc.
      * simpl. by rewrite map_app, Hr1, Hr2.
    + intros Hno.
      destruct Hkv1 as [Ha Hb]; [apply Hno; left|].
      destruct Hkv2 as [Hc Hd].
      { intros resp Hin. apply Hno. by right. }
      split; [by rewrite Hc|by rewrite Hd].
    + intros Hno.
      destruct Herr1 as [Hs1 _]; [apply Hno; left|].
      rewrite Hid2; [done|]. intros resp Hin. apply Hno. by right.
    + intros msg code Hin. apply elem_of_cons in Hin as [Heq|Hin].
      * destruct Herr1 as [_ (msg' & code' & Heq' & Hcode)].
        { by rewrite <- Heq. }
        rewrite <- Heq in Heq'. by injection Heq' as <- <-.
      * by eapply Hc2.
Qed.

(** * The timeline *)

Lemma span_fold_bounds (l : list HistoryEntry) (e t : Z) :
  let r := fold_left
             (λ (el : Z * Z) entry,
                (if Before (Start entry) el.1 then Start entry else el.1,
                 if After (End_ entry) el.2 then End_ entry else el.2))
             l (e, t) in
  (r.1 ≤ e)%Z ∧ (t ≤ r.2)%Z ∧
  Forall (λ h, (r.1 ≤ Start h)%Z ∧ (End_ h ≤ r.2)%Z) l ∧
  (r.1 = e ∨ ∃ h, h ∈ l ∧ Start h = r.1) ∧
  (r.2 = t ∨ ∃ h, h ∈ l ∧ End_ h = r.2) ∧
  (Forall (λ h, (e ≤ Start h)%Z) l → r.1 = e).
Proof.
  revert e t. induction l as [|h l IH]; intros e t; simpl.
  - repeat split; try done; try lia; by left.
  - unfold Before, After.
    set (e1 := if (Start h <? e)%Z then Start h else e).
    set (t1 := if (t <? End_ h)%Z then End_ h else t).
    assert ((e1 ≤ e)%Z ∧ (e1 ≤ Start h)%Z ∧ (e1 = e ∨ e1 = Start h) ∧
            ((e ≤ Start h)%Z → e1 = e)) as (He1 & He2 & He3 & He4).
    { subst e1. destruct (Z.ltb_spec (Start h) e);
        (split; [lia|split; [lia|split; [(by left) || (by right)|lia]]]). }
    assert ((t ≤ t1)%Z ∧ (End_ h ≤ t1)%Z ∧ (t1 = t ∨ t1 = End_ h))
      as (Ht1 & Ht2 & Ht3).
    { subst t1. destruct (Z.ltb_spec t (End_ h));
        (split; [lia|split; [lia|(by left) || (by right)]]). }
    clearbody e1 t1.
    destruct (IH e1 t1) as (Hr1 & Hr2 & Hall & Hmin & Hmax & Hsorted).
    simpl in *. unfold Before, After in *.
    set (r := fold_left _ l (e1, t1)) in *. clearbody r.
    split; [lia|]. split; [lia|]. split; [|split; [|split]].
    + constructor; [lia|done].
    + destruct Hmin as [Hmin|(h' & Hh' & Hmin)].
      * destruct He3 as [He3|He3]; [left; lia|].
        right. exists h. split; [left|lia].
      * right. exists h'. split; [by right|done].
    + destruct Hmax as [Hmax|(h' & Hh' & Hmax)].
      * destruct Ht3 as [Ht3|Ht3]; [left; lia|].
        right. exists h. split; [left|lia].
      * right. exists h'. split; [by right|done].
    + intros Hs. apply Forall_cons in Hs as [Hh Hs].
      rewrite Hsorted.
      * by apply He4.
      * rewrite (He4 Hh). done.
Qed.

(** X11: The span the timeline is drawn over: [earliest] is the least start
    time and [latest] the greatest end time of the log, both attained;
    so every record with [Start ≤ End] lies inside, with offsets
    between 0 and the total duration.  When no entry starts before the
    first one, as after the sort, [earliest] is the first entry's start
    time.  There is no span exactly for the empty log. *)
Theorem timeline_span_bounds (historyCopy : list HistoryEntry)
  (earliest latest : Z) :
  timelineSpan historyCopy = Some (earliest, latest) →
  Forall (λ h, (earliest ≤ Start h)%Z ∧ (End_ h ≤ latest)%Z ∧
               ((Start h ≤ End_ h)%Z →
                (0 ≤ Sub (Start h) earliest ≤ Sub (End_ h) earliest)%Z ∧
                (Sub (End_ h) earliest ≤ Sub latest earliest)%Z))
         historyCopy ∧
  (∃ h, h ∈ historyCopy ∧ Start h = earliest) ∧
  (∃ h, h ∈ historyCopy ∧ End_ h = latest) ∧
  (∀ first rest, historyCopy = first :: rest →
     Forall (λ h, (Start first ≤ Start h)%Z) rest →
     earliest = Start first).
Proof.
  unfold timelineSpan. destruct historyCopy as [|first rest]; [done|].
  intros Hspan. apply (inj Some) in Hspan.
  pose proof (span_fold_bounds (first :: rest) (Start first) (End_ first))
    as Hb. cbv zeta in Hb. rewrite Hspan in Hb. simpl in Hb.
  destruct Hb as (He & Ht & Hall & Hmin & Hmax & Hsorted).
  split; [|split; [|split]].
  - eapply Forall_impl; [exact Hall|]. simpl. unfold Sub. intros h. lia.
  - destruct Hmin as [->|?]; [|done]. exists first. split; [left|done].
  - destruct Hmax as [->|?]; [|done]. exists first. split; [left|done].
  - intros first' rest' [= <- <-] Hs. apply Hsorted.
    constructor; [lia|done].
Qed.

Lemma timelineSpan_none historyCopy :
  timelineSpan historyCopy = None ↔ historyCopy = [].
Proof. by destruct historyCopy. Qed.

Lemma substring_length n s :
  String.length (String.substring 0 n s) = Nat.min n (String.length s).
Proof.
  revert s. induction n as [|n IH]; intros [|c s]; simpl; try done.
  by rewrite IH.
Qed.

(** X12: The value column of the timeline: a value of at most 8 bytes is
    printed as it is; a longer one is cut to its first 8 bytes followed
    by three dots, 11 bytes in all, so also a value of 9 or 10 bytes is
    printed at 11; in both cases the first 8 bytes are those of the
    value. *)
Theorem timeline_value_cut (value : string) :
  (String.length (timelineValue value) ≤ 11)%nat ∧
  ((String.length value ≤ 8)%nat → timelineValue value = value) ∧
  ((8 < String.length value)%nat →
     String.length (timelineValue value) = 11%nat ∧
     String.substring 8 3 (timelineValue value) = "...") ∧
  (∀ i, (i < 8)%nat →
     String.get i (timelineValue value) = String.get i value).
Proof.
  unfold timelineValue. destruct (Nat.ltb_spec 8 (String.length value)).
  - assert (String.length (String.substring 0 8 value) = 8) as Hlen.
    { rewrite substring_length. lia. }
    split; [|split; [|split]].
    + rewrite string_length_app, Hlen. simpl. lia.
    + lia.
    + intros _. split; [rewrite string_length_app, Hlen; simpl; lia|].
      generalize dependent (String.substring 0 8 value).
      intros s Hs.
      do 8 (destruct s as [|? s]; simpl in Hs; [lia|]).
      destruct s; simpl in Hs; [done|lia].
    + intros i Hi.
      rewrite <- (String.append_correct1 (String.substring 0 8 value) "...")
        by lia.
      rewrite String.substring_correct1 by done. f_equal. lia.
  - repeat split; try done; lia.
Qed.

(** * The properties above at concrete inputs *)

Lemma history_without_reads_accepted_witness :
  @CheckLinearizability goInsertionSort writesOnly = (true, []).
Proof.
  apply (@history_without_reads_accepted goInsertionSort writesOnly).
  intros h Hh. pick_entry Hh; discriminate.
Defined.

Lemma verdict_independent_of_log_order_witness :
  (@CheckLinearizability goInsertionSort newerRead).1
  = (@CheckLinearizability goInsertionSort (reverse newerRead)).1 ∧
  (@CheckLinearizability goInsertionSort newerRead).2
  ≡ₚ (@CheckLinearizability goInsertionSort (reverse newerRead)).2.
Proof.
  apply (@verdict_independent_of_log_order goInsertionSort newerRead
           (reverse newerRead)).
  - symmetry. apply reverse_Permutation.
  - apply (bool_decide_unpack _). vm_compute. exact I.
Defined.

Lemma sequential_log_passes_per_key_witness :
  let hist := history (serveAll overwrittenThenRead 0 NewStore).2 in
  (∀ key, keyViolation key ∉ (@CheckLinearizability goInsertionSort hist).2) ∧
  (@CheckLinearizability goInsertionSort hist).1
  = @checkReadYourWrite goInsertionSort (map toOperation hist).
Proof.
  apply (@sequential_log_passes_per_key goInsertionSort
           overwrittenThenRead 0).
  repeat constructor.
Defined.

Section InsertionSortPastEquals.
Context {A : Type} (less : A → A → bool).

Lemma sinkPastEquals_perm x before :
  sinkPastEquals less x before ≡ₚ x :: before.
Proof.
  induction before as [|y before IH]; simpl; [done|].
  destruct (less y x); [done|].
  rewrite IH. apply Permutation_swap.
Qed.

Lemma insertionSortPastEquals_perm l : insertionSortPastEquals less l ≡ₚ l.
Proof.
  unfold insertionSortPastEquals. rewrite <- Permutation_rev.
  assert (∀ acc, fold_left (λ before x, sinkPastEquals less x before) l acc
                 ≡ₚ l ++ acc) as Hfold.
  { induction l as [|x l IH]; intros acc; simpl; [done|].
    rewrite IH, sinkPastEquals_perm. by rewrite Permutation_middle. }
  by rewrite Hfold, app_nil_r.
Qed.

Hypothesis less_sw : strictWeak less.

Lemma sinkPastEquals_sorted x before :
  StronglySorted (λ a b, less a b = false) before →
  StronglySorted (λ a b, less a b = false) (sinkPastEquals less x before).
Proof.
  destruct less_sw as [Hasym Htrans].
  induction 1 as [|y before Hs IH Hy]; simpl.
  - repeat constructor.
  - destruct (less y x) eqn:Hyx.
    + constructor; [by constructor|].
      constructor; [by apply Hasym|].
      eapply Forall_impl; [exact Hy|]. simpl. intros z Hz.
      apply (Htrans x y z); [by apply Hasym|done].
    + constructor; [done|].
      rewrite sinkPastEquals_perm. by constructor.
Qed.

Lemma insertionSortPastEquals_sorted l :
  StronglySorted (λ a b, less b a = false) (insertionSortPastEquals less l).
Proof.
  unfold insertionSortPastEquals.
  apply (StronglySorted_rev_flip (λ a b, less a b = false)).
  assert (∀ acc, StronglySorted (λ a b, less a b = false) acc →
            StronglySorted (λ a b, less a b = false)
              (fold_left (λ before x, sinkPastEquals less x before) l acc))
    as Hfold.
  { induction l as [|x l IH]; intros acc Hacc; simpl; [done|].
    by apply IH, sinkPastEquals_sorted. }
  apply Hfold. constructor.
Qed.
End InsertionSortPastEquals.

Definition tieReversingSort : SliceSorter :=
  {| sortSlice := insertionSortPastEquals;
     sortSlice_perm := insertionSortPastEquals_perm;
     sortSlice_sorted :=
       λ less l Hsw, insertionSortPastEquals_sorted less Hsw l |}.

Lemma result_independent_of_sorter_witness :
  @CheckLinearizability goInsertionSort regressingReads
  = @CheckLinearizability tieReversingSort regressingReads.
Proof.
  apply (result_independent_of_sorter goInsertionSort tieReversingSort
           regressingReads).
  apply (bool_decide_unpack _). vm_compute. exact I.
Defined.

(** With a tie the two sorting procedures part: on [tieHistory] one
    keeps the write before the read that starts at the same instant,
    the other puts the read first, and the checker's answers differ. *)
Example tie_decided_by_the_sorter :
  @CheckLinearizability goInsertionSort tieHistory = (true, []) ∧
  @CheckLinearizability tieReversingSort tieHistory
    = (false, [keyViolation "k"]).
Proof. split; by vm_compute. Qed.

Lemma overtakenState_reachable : reachable overtakenState.
Proof. exists 0%Z, overtakingEvents. vm_compute. reflexivity. Qed.

Lemma request_applied_at_most_once_witness :
  (∀ pre h post, history (store overtakenState) = pre ++ h :: post →
     Op h = "PUT" →
     (Result h = "ok" ∧ ∀ h', h' ∈ pre → ¬ appliedBy (RequestID h) h') ∨
     (Result h = "duplicate" ∧
      ∃ h', h' ∈ pre ∧ appliedBy (RequestID h) h')) ∧
  (mu overtakenState = false → ∀ id,
     id ∈ seenWrite (store overtakenState) ↔
     ∃ h, h ∈ history (store overtakenState) ∧ appliedBy id h).
Proof.
  apply (request_applied_at_most_once overtakenState).
  exists 0%Z, overtakingEvents. vm_compute. reflexivity.
Defined.

Lemma map_is_last_applied_put_witness :
  (∀ key, kv (store overtakenState) !! key
          = lastOkPut key (history (store overtakenState))) ∧
  (∀ key reqID d1 d2 c, key ≠ "" →
     (handleGet key reqID d1 d2 c (store overtakenState)).1.1 =
     match lastOkPut key (history (store overtakenState)) with
     | Some v => GetReply {| resp_Key := key; resp_Value := v;
                             resp_Found := true; resp_Result := "ok" |}
     | None => GetReply {| resp_Key := key; resp_Value := "";
                           resp_Found := false;
                           resp_Result := "not_found" |}
     end).
Proof.
  apply (map_is_last_applied_put overtakenState).
  - exists 0%Z, overtakingEvents. vm_compute. reflexivity.
  - vm_compute. reflexivity.
Defined.

Lemma log_records_well_formed_witness :
  Forall (λ h, wellFormed h ∧ (0 ≤ Duration h)%Z)
         (history (store overtakenState)).
Proof.
  apply (log_records_well_formed overtakenState).
  exists 0%Z, overtakingEvents. vm_compute. reflexivity.
Defined.

Lemma timeline_span_bounds_witness :
  Forall (λ h, (5 ≤ Start h)%Z ∧ (End_ h ≤ 7)%Z ∧
               ((Start h ≤ End_ h)%Z →
                (0 ≤ Sub (Start h) 5 ≤ Sub (End_ h) 5)%Z ∧
                (Sub (End_ h) 5 ≤ Sub 7 5)%Z))
         tieHistory ∧
  (∃ h, h ∈ tieHistory ∧ Start h = 5%Z) ∧
  (∃ h, h ∈ tieHistory ∧ End_ h = 7%Z) ∧
  (∀ first rest, tieHistory = first :: rest →
     Forall (λ h, (Start first ≤ Start h)%Z) rest →
     5%Z = Start first).
Proof.
  apply (timeline_span_bounds tieHistory 5 7).
  vm_compute. reflexivity.
Defined.
